(** * discoart: a shallow embedding of [discoart/__init__.py]

    The development follows the source file top to bottom: prompt parsing
    ([parse_prompt]), the two cutout generators ([MakeCutouts],
    [MakeCutoutsDango]), and the body of [do_run]: construction of the
    per-model statistics, the loss [spherical_dist_loss], the guidance
    function [cond_fn] and the batch loop with its seeding.

    Conventions.
    - A Python [str] is a [list ascii]; [lit] turns a literal into one.
    - A Python exception is a value of [exn]; code that may raise returns a
      [result].
    - Python [int] is [Z]; [//] is [Z.div] (both round towards minus
      infinity).
    - A Python [float] is a rational ([Q]) rounded to a double, and an
      entry of the tensor of prompt weights is a [float32] ([f32]): a
      rational rounded to 24 significant bits, an infinity or NaN.
    - The entries of the other tensors are extended reals ([fval]): a real
      number, one of the two infinities, or NaN.  Finite arithmetic on
      them is exact: rounding and overflow of the machine formats are not
      modelled, and the two zeros are not told apart.
    - The diffusion model, the CLIP models, autograd and the random number
      generators are collaborators of the source; they appear as section
      variables or as oracle arguments. *)

From Stdlib Require Import List String Ascii Bool ZArith QArith Qabs Qround Qminmax.
From Stdlib Require Import Lia Lra Reals Qreals Qpower.
From Stdlib Require Lqa.
Import ListNotations.

Set Implicit Arguments.

(* ================================================================== *)
(** * Part I: definitions                                              *)
(* ================================================================== *)

(** ** Exceptions *)

Inductive exn : Set :=
| IndexError
| ValueError
| RuntimeError
| TypeError
| ZeroDivisionError.

Inductive result (A : Type) : Type :=
| Ok (a : A)
| Raise (e : exn).

Arguments Ok {A} a.
Arguments Raise {A} e.

Definition bind {A B : Type} (r : result A) (k : A -> result B) : result B :=
  match r with
  | Ok a => k a
  | Raise e => Raise e
  end.

Declare Scope py_scope.
Delimit Scope py_scope with py.
Notation "x <- r ;; k" := (bind r (fun x => k))
  (at level 61, r at next level, right associativity) : py_scope.
Notation "' p <- r ;; k" := (bind r (fun p => k))
  (at level 61, p pattern, r at next level, right associativity) : py_scope.

(** ** Strings *)

Definition str : Set := list ascii.

Definition lit (s : string) : str := list_ascii_of_string s.

Definition colon : ascii := ":"%char.

(** [s.startswith(p)] *)
Fixpoint startswith (p s : str) : bool :=
  match p, s with
  | [], _ => true
  | _ :: _, [] => false
  | a :: p', b :: s' => Ascii.eqb a b && startswith p' s'
  end.

(** The last occurrence of [sep] in [s]: what precedes it and what follows. *)
Fixpoint cut_last (sep : ascii) (s : str) : option (str * str) :=
  match s with
  | [] => None
  | c :: s' =>
      match cut_last sep s' with
      | Some (a, b) => Some (c :: a, b)
      | None => if Ascii.eqb c sep then Some ([], s') else None
      end
  end.

(** [s.rsplit(sep, maxsplit)] for a one-character separator: at most
    [maxsplit] cuts, taken from the right. *)
Fixpoint rsplit (sep : ascii) (maxsplit : nat) (s : str) : list str :=
  match maxsplit with
  | O => [s]
  | S n =>
      match cut_last sep s with
      | None => [s]
      | Some (a, b) => rsplit sep n a ++ [b]
      end
  end.

(** [l[i]] for a non-negative literal index. *)
Definition getitem_nat {A : Type} (l : list A) (i : nat) : result A :=
  match nth_error l i with
  | Some a => Ok a
  | None => Raise IndexError
  end.

(** ** Binary floating point

    [round_float p emin q] is the number nearest to [q] among those of at
    most [p] significant bits and of exponent at least [emin], a tie going
    to the even significand (IEEE 754 round-to-nearest-even, with gradual
    underflow below [2 ^ emin]). *)

Definition round_half_even (n d : Z) : Z :=
  let q := (n / d)%Z in
  let r := (n mod d)%Z in
  match (2 * r ?= d)%Z with
  | Lt => q
  | Gt => (q + 1)%Z
  | Eq => if Z.even q then q else (q + 1)%Z
  end.

Definition round_float (p emin : Z) (q : Q) : Q :=
  let n := Qnum q in
  let d := Zpos (Qden q) in
  if (n =? 0)%Z then 0%Q
  else
    let a := Z.abs n in
    let e0 := (Z.log2 a - Z.log2 d)%Z in
    (* [e] is the exponent of [q]: 2^e <= |q| < 2^(e+1) *)
    let e := if (a * 2 ^ Z.max 0 (- e0) <? d * 2 ^ Z.max 0 e0)%Z
             then (e0 - 1)%Z else e0 in
    let sh := (p - 1 - Z.max emin e)%Z in
    let m := round_half_even (a * 2 ^ Z.max 0 sh)%Z
                             (d * 2 ^ Z.max 0 (- sh))%Z in
    Qred (Qmake (Z.sgn n * m * 2 ^ Z.max 0 (- sh))%Z
                (Z.to_pos (2 ^ Z.max 0 sh))).

(** A Python [float] is a double.  Its overflow to an infinity, beyond
    some 1.8e308, is not modelled. *)
Definition float64 : Q -> Q := round_float 53 (-1022).

(** A [torch.float32]: a number, an infinity or NaN.  The two zeros are
    not told apart. *)
Inductive f32 : Set :=
| F32 (q : Q)
| F32inf (positive : bool)
| F32nan.

Definition float32_max : Q := inject_Z (2 ^ 128 - 2 ^ 104).

(** The [float32] nearest to [q]; what rounds beyond the largest one is
    an infinity. *)
Definition to_float32 (q : Q) : f32 :=
  let r := round_float 24 (-126) q in
  if Qle_bool (Qabs r) float32_max then F32 r
  else F32inf (0 <? Qnum q)%Z.

Definition f32_add (a b : f32) : f32 :=
  match a, b with
  | F32nan, _ | _, F32nan => F32nan
  | F32 x, F32 y => to_float32 (x + y)
  | F32inf s, F32inf s' => if Bool.eqb s s' then F32inf s else F32nan
  | F32inf s, F32 _ | F32 _, F32inf s => F32inf s
  end.

Definition f32_abs (a : f32) : f32 :=
  match a with
  | F32 x => F32 (Qabs x)
  | F32inf _ => F32inf true
  | F32nan => F32nan
  end.

(** [a < b]: false as soon as one side is NaN. *)
Definition f32_lt (a b : f32) : bool :=
  match a, b with
  | F32nan, _ | _, F32nan => false
  | F32 x, F32 y => negb (Qle_bool y x)
  | F32inf s, F32inf s' => negb s && s'
  | F32inf s, F32 _ => negb s
  | F32 _, F32inf s => s
  end.

(** [a / b]; a zero divisor is taken as the positive zero. *)
Definition f32_div (a b : f32) : f32 :=
  match a, b with
  | F32nan, _ | _, F32nan => F32nan
  | F32 x, F32 y =>
      if Qeq_bool y 0
      then (if Qeq_bool x 0 then F32nan else F32inf (0 <? Qnum x)%Z)
      else to_float32 (x / y)
  | F32 _, F32inf _ => F32 0
  | F32inf s, F32 y => F32inf (if (0 <=? Qnum y)%Z then s else negb s)
  | F32inf _, F32inf _ => F32nan
  end.

(** ** [float(s)]

    Decimal literals only: an optional sign, digits, at most one point, and
    at least one digit; the result is the double nearest to the number
    written.  What Python accepts beyond that (exponents, [inf], [nan],
    underscores, surrounding blanks) is outside the model and is answered
    by [ValueError] here. *)

Definition digit_val (c : ascii) : option Z :=
  let n := nat_of_ascii c in
  if (48 <=? n)%nat && (n <=? 57)%nat then Some (Z.of_nat (n - 48)) else None.

Fixpoint digits (acc : Z) (s : str) : option Z :=
  match s with
  | [] => Some acc
  | c :: s' =>
      match digit_val c with
      | Some d => digits (10 * acc + d)%Z s'
      | None => None
      end
  end.

Fixpoint cut_first (sep : ascii) (s : str) : option (str * str) :=
  match s with
  | [] => None
  | c :: s' =>
      if Ascii.eqb c sep then Some ([], s')
      else match cut_first sep s' with
           | Some (a, b) => Some (c :: a, b)
           | None => None
           end
  end.

Definition unsigned_decimal (s : str) : option Q :=
  let '(ip, fp) := match cut_first "."%char s with
                   | Some (a, b) => (a, b)
                   | None => (s, [])
                   end in
  match ip, fp with
  | [], [] => None
  | _, _ =>
      match digits 0 (ip ++ fp) with
      | Some m => Some (Qred (Qmake m (Z.to_pos (10 ^ Z.of_nat (List.length fp)))))
      | None => None
      end
  end.

Definition float (s : str) : result Q :=
  let '(neg, body) :=
    match s with
    | c :: s' => if Ascii.eqb c "-"%char then (true, s')
                 else if Ascii.eqb c "+"%char then (false, s')
                 else (false, s)
    | [] => (false, s)
    end in
  match unsigned_decimal body with
  | Some q => Ok (float64 (if neg : bool then - q else q))
  | None => Raise ValueError
  end.

(** ** [parse_prompt] *)

Local Open Scope py_scope.

Definition parse_prompt (prompt : str) : result (str * Q) :=
  vals <-
    (if startswith (lit "http://") prompt || startswith (lit "https://") prompt
     then
       let vals := rsplit colon 2 prompt in
       v0 <- getitem_nat vals 0 ;;
       v1 <- getitem_nat vals 1 ;;
       Ok ((v0 ++ lit ":" ++ v1) :: skipn 2 vals)
     else Ok (rsplit colon 1 prompt)) ;;
  let vals := vals ++ skipn (List.length vals) [lit ""; lit "1"] in
  v0 <- getitem_nat vals 0 ;;
  v1 <- getitem_nat vals 1 ;;
  w <- float v1 ;;
  Ok (v0, w).

(** [torch.cat(tensors)]: the tensors are joined along their first
    dimension, here kept as the list of the parts; an empty list is refused. *)
Definition torch_cat {A : Type} (tensors : list A) : result (list A) :=
  match tensors with
  | [] => Raise RuntimeError
  | _ :: _ => Ok tensors
  end.

(** ** Effects of [do_run]: seeding and sampling

    [do_run] is observed through the sequence of its calls to the random
    number generators' seeding functions and to the diffusion sampler. *)

Inductive rng_source : Set := NumpyRNG | PythonRNG | TorchRNG | CudaRNG.

Inductive event : Set :=
| Seed (src : rng_source) (seed : Z)
| CudnnDeterministic
| Sample (nb : Z) (args_seed : Z).

(** [_set_seed(seed)] *)
Definition _set_seed (seed : Z) : list event :=
  [Seed NumpyRNG seed; Seed PythonRNG seed; Seed TorchRNG seed;
   Seed CudaRNG seed; CudnnDeterministic].

(** What output [i] of a batch with base seed [s] leaves in the log. *)
Definition generation (s i : Z) : list event :=
  _set_seed (s + i) ++ [Sample i (s + i)%Z].

(** [range(n)] *)
Definition range (n : Z) : list Z := map Z.of_nat (seq 0 (Z.to_nat n)).

(** [torch.tensor(weights)]: the Python floats become the entries of a
    [float32] tensor. *)
Definition weights_tensor (ws : list Q) : list f32 := map to_float32 ws.

(** [tensor.sum()] of a [float32] tensor, the entries added from the left
    one at a time (with two entries the order is of no account). *)
Definition weights_sum (t : list f32) : f32 := fold_left f32_add t (F32 0).

(** [t /= s] *)
Definition weights_div (t : list f32) (s : f32) : list f32 :=
  map (fun w => f32_div w s) t.

(** The [1e-3] of the test [... < 1e-3], a Python float taken to the
    dtype of the tensor it is compared with.  No [float32] lies between
    it and one thousandth. *)
Definition weights_floor : f32 := to_float32 (float64 (1 # 1000)).

Section DoRun.

(** The CLIP collaborators. *)
Variable clip_model : Type.
Variable tokens : Type.
Variable embedding : Type.
Variable tokenize : str -> tokens.
Variable encode_text : clip_model -> tokens -> embedding.

Record model_stat : Type := {
  stat_clip_model : clip_model;
  target_embeds : list embedding;
  weights : list f32
}.

(** The loop [for prompt in args.text_prompts] (lines 545-549): the two
    lists it appends to. *)
Fixpoint prompt_loop (m : clip_model) (prompts : list str)
         (embeds : list embedding) (ws : list Q)
  : result (list embedding * list Q) :=
  match prompts with
  | [] => Ok (embeds, ws)
  | prompt :: rest =>
      '(_, weight) <- parse_prompt prompt ;;
      let txt := encode_text m (tokenize prompt) in
      prompt_loop m rest (embeds ++ [txt]) (ws ++ [weight])
  end.

(** One pass of [for clip_model in clip_models] (lines 537-556). *)
Definition make_model_stat (m : clip_model) (prompts : list str)
  : result model_stat :=
  '(embeds, ws) <- prompt_loop m prompts [] [] ;;
  embeds <- torch_cat embeds ;;
  let ws := weights_tensor ws in
  let s := f32_abs (weights_sum ws) in
  if f32_lt s weights_floor then Raise RuntimeError
  else Ok {| stat_clip_model := m;
             target_embeds := embeds;
             weights := weights_div ws s |}.

Fixpoint make_model_stats (clip_models : list clip_model)
         (prompts : list str) : result (list model_stat) :=
  match clip_models with
  | [] => Ok []
  | m :: ms =>
      st <- make_model_stat m prompts ;;
      sts <- make_model_stats ms prompts ;;
      Ok (st :: sts)
  end.

(** The sampler with everything it is passed: consuming the progressive
    sample loop for output [_nb] either completes or raises. *)
Variable run_sampler : list model_stat -> Z -> result unit.

(** The batch loop (lines 665-735).  The event log is returned together
    with the outcome, so that what happened before an exception is kept. *)
Fixpoint batch_loop (stats : list model_stat) (org_seed : Z)
         (nbs : list Z) : result unit * list event :=
  match nbs with
  | [] => (Ok tt, [])
  | _nb :: rest =>
      let new_seed := (org_seed + _nb)%Z in
      let here := _set_seed new_seed ++ [Sample _nb new_seed] in
      match run_sampler stats _nb with
      | Raise e => (Raise e, here)
      | Ok _ =>
          let '(r, log) := batch_loop stats org_seed rest in
          (r, here ++ log)
      end
  end.

Record run_args : Type := {
  text_prompts : list str;
  seed : Z;
  batch_size : Z
}.

Definition do_run (args : run_args) (clip_models : list clip_model)
  : result unit * list event :=
  let log0 := _set_seed (seed args) in
  match make_model_stats clip_models (text_prompts args) with
  | Raise e => (Raise e, log0)
  | Ok model_stats =>
      let org_seed := seed args in
      let '(r, log) := batch_loop model_stats org_seed
                         (range (batch_size args)) in
      (r, log0 ++ log)
  end.

End DoRun.

(** ** Cutout schedules

    [eval(args.cut_overview)] and its two siblings evaluate a Python list
    expression.  The expressions the interface documents are sums of
    repeated one-element lists, as in ['[12]*400+[4]*600']. *)

Inductive list_expr (A : Type) : Type :=
| Rep (v : A) (n : Z)
| Cat (e1 e2 : list_expr A).

Fixpoint eval {A : Type} (e : list_expr A) : list A :=
  match e with
  | Rep v n => repeat v (Z.to_nat n)
  | Cat e1 e2 => eval e1 ++ eval e2
  end.

(** The defaults of [create]. *)
Definition default_cut_overview : list_expr Z := Cat (Rep 12%Z 400) (Rep 4%Z 600).
Definition default_cut_innercut : list_expr Z := Cat (Rep 4%Z 400) (Rep 12%Z 600).
Definition default_cut_icgray_p : list_expr Q := Cat (Rep (2 # 10) 400) (Rep 0%Q 600).

(** [l[i]] with Python's reading of a negative index. *)
Definition py_getitem {A : Type} (l : list A) (i : Z) : result A :=
  let n := Z.of_nat (List.length l) in
  let j := (if i <? 0 then i + n else i)%Z in
  if (j <? 0)%Z || (n <=? j)%Z then Raise IndexError
  else getitem_nat l (Z.to_nat j).

(** The index [cond_fn] reads the three schedules at, for the timestep [t]
    it is called with ([t_int = int(t.item()) + 1]). *)
Definition schedule_index (t : Z) : Z :=
  let t_int := (t + 1)%Z in (1000 - t_int)%Z.

(** [diffusion_steps] of [load_diffusion_model]. *)
Definition diffusion_steps (steps : Z) : result Z :=
  if (steps <? 1000)%Z then
    if (steps =? 0)%Z then Raise ZeroDivisionError
    else Ok ((1000 / steps) * steps)%Z
  else Ok steps.

(** ** Cutouts *)

(** The shape of a 4-dimensional tensor. *)
Record shape4 : Set := {
  dim0 : Z;
  dim1 : Z;
  dim2 : Z;
  dim3 : Z
}.

(** Where a cutout is taken from: the whole (padded) image, or a square
    window [input[:, :, offsety:offsety+size, offsetx:offsetx+size]]. *)
Inductive region : Set :=
| Whole
| Window (offsety offsetx size : Z).

Record cutout : Set := {
  taken_from : region;
  grayed : bool;
  hflipped : bool;
  augmented : bool;
  out_shape : shape4
}.

(** The random draws of one [forward] call, by loop index. *)
Record draws : Set := {
  normal_ : Z -> Q;      (* [torch.zeros(1).normal_(mean=0.8, std=0.3)] *)
  rand : Z -> Q;         (* [torch.rand([])] *)
  randint_x : Z -> Z;    (* the raw integer behind [offsetx] *)
  randint_y : Z -> Z     (* the raw integer behind [offsety] *)
}.

(** [torch.randint(0, high, ())] *)
Definition randint (raw high : Z) : result Z :=
  if (0 <? high)%Z then Ok (raw mod high)%Z else Raise RuntimeError.

(** [x.clip(lo, hi)] *)
Definition clip (x lo hi : Q) : Q := Qmin (Qmax x lo) hi.

(** [int(x)]: truncation towards zero. *)
Definition int (x : Q) : Z :=
  if Qlt_le_dec x 0 then Qceiling x else Qfloor x.

Record MakeCutouts : Set := {
  mc_cut_size : Z;
  mc_cutn : Z;
  mc_skip_augs : bool
}.

(** One pass of the loop of [MakeCutouts.forward] (lines 306-323).  The
    side of a crop is computed on exact rationals, where the source
    multiplies in [float32]. *)
Definition MakeCutouts_step (self : MakeCutouts) (rnd : draws)
           (padded : shape4) (ch : Z) : result cutout :=
  let sideY := dim2 padded in
  let sideX := dim3 padded in
  let max_size := Z.min sideX sideY in
  let cutn := mc_cutn self in
  reg <-
    (if (ch >? cutn - cutn / 4)%Z then Ok Whole
     else
       if (max_size =? 0)%Z then Raise ZeroDivisionError
       else
         let lo := (inject_Z (mc_cut_size self) / inject_Z max_size)%Q in
         let size := int (inject_Z max_size * clip (normal_ rnd ch) lo 1)%Q in
         offsetx <- randint (randint_x rnd ch) (Z.abs (sideX - size + 1)) ;;
         offsety <- randint (randint_y rnd ch) (Z.abs (sideY - size + 1)) ;;
         Ok (Window offsety offsetx size)) ;;
  Ok {| taken_from := reg;
        grayed := false;
        hflipped := false;
        augmented := negb (mc_skip_augs self);
        out_shape := {| dim0 := dim0 padded; dim1 := dim1 padded;
                        dim2 := mc_cut_size self;
                        dim3 := mc_cut_size self |} |}.

Fixpoint for_each {A B : Type} (f : A -> result B) (l : list A)
  : result (list B) :=
  match l with
  | [] => Ok []
  | a :: l' => b <- f a ;; bs <- for_each f l' ;; Ok (b :: bs)
  end.

Definition MakeCutouts_forward (self : MakeCutouts) (rnd : draws)
           (input : shape4) : result (list cutout) :=
  let p := (dim2 input / 4)%Z in
  let input := {| dim0 := dim0 input; dim1 := dim1 input;
                  dim2 := (dim2 input + 2 * p)%Z;
                  dim3 := (dim3 input + 2 * p)%Z |} in
  cutouts <- for_each (MakeCutouts_step self rnd input)
                      (range (mc_cutn self)) ;;
  torch_cat cutouts.

Record MakeCutoutsDango : Set := {
  cut_size : Z;
  Overview : Z;
  InnerCrop : Z;
  IC_Size_Pow : Z;
  IC_Grey_P : Q
}.

Definition overview_cutout (self : MakeCutoutsDango) (g f : bool) : cutout :=
  {| taken_from := Whole; grayed := g; hflipped := f; augmented := false;
     out_shape := {| dim0 := 1; dim1 := 3;
                     dim2 := cut_size self; dim3 := cut_size self |} |}.

(** Lines 375-388. *)
Definition overview_cutouts (self : MakeCutoutsDango) : list cutout :=
  let ov := Overview self in
  if (ov >? 0)%Z then
    if (ov <=? 4)%Z then
      (if (ov >=? 1)%Z then [overview_cutout self false false] else [])
      ++ (if (ov >=? 2)%Z then [overview_cutout self true false] else [])
      ++ (if (ov >=? 3)%Z then [overview_cutout self false true] else [])
      ++ (if (ov =? 4)%Z then [overview_cutout self true true] else [])
    else map (fun _ => overview_cutout self false false) (range ov)
  else [].

(** One pass of the inner-crop loop (lines 392-402). *)
Definition innercrop_step (self : MakeCutoutsDango) (rnd : draws)
           (input : shape4) (i : Z) : result cutout :=
  let sideY := dim2 input in
  let sideX := dim3 input in
  let max_size := Z.min sideX sideY in
  let min_size := Z.min (Z.min sideX sideY) (cut_size self) in
  let size := int (Qpower (rand rnd i) (IC_Size_Pow self)
                   * inject_Z (max_size - min_size) + inject_Z min_size)%Q in
  offsetx <- randint (randint_x rnd i) (sideX - size + 1) ;;
  offsety <- randint (randint_y rnd i) (sideY - size + 1) ;;
  Ok {| taken_from := Window offsety offsetx size;
        grayed := (i <=? int (IC_Grey_P self * inject_Z (InnerCrop self))%Q)%Z;
        hflipped := false;
        augmented := false;
        out_shape := {| dim0 := 1; dim1 := 3;
                        dim2 := cut_size self; dim3 := cut_size self |} |}.

Definition augment (c : cutout) : cutout :=
  {| taken_from := taken_from c; grayed := grayed c; hflipped := hflipped c;
     augmented := true; out_shape := out_shape c |}.

(** [MakeCutoutsDango.forward], under the module-level flag [skip_augs].
    A call that reaches the end of the body without meeting [return]
    answers [None]. *)
Definition MakeCutoutsDango_forward (skip_augs : bool)
           (self : MakeCutoutsDango) (rnd : draws) (input : shape4)
  : result (option (list cutout)) :=
  let cutouts := overview_cutouts self in
  inner <-
    (if (InnerCrop self >? 0)%Z
     then for_each (innercrop_step self rnd input) (range (InnerCrop self))
     else Ok []) ;;
  cutouts <- torch_cat (cutouts ++ inner) ;;
  if negb skip_augs then Ok (Some (map augment cutouts))
  else Ok None.

(** ** Tensor entries

    A floating-point value is a real number, an infinity or NaN.  The
    special values follow IEEE 754; on finite values the operations are
    those of the reals. *)

Local Open Scope R_scope.

Inductive fval : Type :=
| Fin (r : R)
| PInf
| NInf
| NaN.

Definition isnan (a : fval) : bool :=
  match a with NaN => true | _ => false end.

Definition isfinite (a : fval) : bool :=
  match a with Fin _ => true | _ => false end.

Definition fneg (a : fval) : fval :=
  match a with
  | Fin r => Fin (- r)
  | PInf => NInf
  | NInf => PInf
  | NaN => NaN
  end.

Definition inf_of_sign (positive : bool) : fval :=
  if positive then PInf else NInf.

(** The sign of an infinity times or divided by a finite non-zero [r]. *)
Definition scaled_inf (positive : bool) (r : R) : fval :=
  if Rlt_dec 0 r then inf_of_sign positive
  else if Rlt_dec r 0 then inf_of_sign (negb positive)
  else NaN.

Definition fadd (a b : fval) : fval :=
  match a, b with
  | NaN, _ | _, NaN => NaN
  | Fin x, Fin y => Fin (x + y)
  | PInf, NInf | NInf, PInf => NaN
  | PInf, _ | _, PInf => PInf
  | NInf, _ | _, NInf => NInf
  end.

Definition fmul (a b : fval) : fval :=
  match a, b with
  | NaN, _ | _, NaN => NaN
  | Fin x, Fin y => Fin (x * y)
  | PInf, Fin r | Fin r, PInf => scaled_inf true r
  | NInf, Fin r | Fin r, NInf => scaled_inf false r
  | PInf, PInf | NInf, NInf => PInf
  | PInf, NInf | NInf, PInf => NInf
  end.

Definition fdiv (a b : fval) : fval :=
  match a, b with
  | NaN, _ | _, NaN => NaN
  | Fin x, Fin y =>
      if Req_dec_T y 0 then
        (if Rlt_dec 0 x then PInf else if Rlt_dec x 0 then NInf else NaN)
      else Fin (x / y)
  | Fin _, (PInf | NInf) => Fin 0
  | PInf, Fin r => if Rle_dec 0 r then PInf else NInf
  | NInf, Fin r => if Rle_dec 0 r then NInf else PInf
  | (PInf | NInf), (PInf | NInf) => NaN
  end.

Definition fsqrt (a : fval) : fval :=
  match a with
  | Fin r => if Rlt_dec r 0 then NaN else Fin (sqrt r)
  | PInf => PInf
  | NInf | NaN => NaN
  end.

(** [a.clamp(max=c)] for a Python float [c]. *)
Definition fclamp_max (a : fval) (c : R) : fval :=
  match a with
  | Fin r => Fin (Rmin r c)
  | PInf => Fin c
  | NInf => NInf
  | NaN => NaN
  end.

(** ** Tensors *)

Record tensor : Type := {
  shape : list nat;
  data : list fval
}.

Definition tmap (f : fval -> fval) (x : tensor) : tensor :=
  {| shape := shape x; data := map f (data x) |}.

Fixpoint zip_with {A : Type} (f : A -> A -> A) (a b : list A) : list A :=
  match a, b with
  | x :: a', y :: b' => f x y :: zip_with f a' b'
  | _, _ => []
  end.

(** [a += b] for a [b] of the shape of [a]. *)
Definition tadd (a b : tensor) : tensor :=
  {| shape := shape a; data := zip_with fadd (data a) (data b) |}.

Definition zeros_like (x : tensor) : tensor := tmap (fun _ => Fin 0) x.

Definition tneg (x : tensor) : tensor := tmap fneg x.

Definition tsquare (x : tensor) : tensor := tmap (fun a => fmul a a) x.

(** [x.mean()] over all entries. *)
Definition tmean (x : tensor) : fval :=
  fdiv (fold_left fadd (data x) (Fin 0)) (Fin (INR (List.length (data x)))).

Definition tany (p : fval -> bool) (x : tensor) : bool := existsb p (data x).

(** ** [spherical_dist_loss]

    On one candidate and one target embedding, over the reals: the
    arithmetic is exact, where the source rounds every step to
    [float32]. *)

Definition vec : Type := list R.

Definition dot (a b : vec) : R := fold_right Rplus 0 (zip_with Rmult a b).

Definition norm (a : vec) : R := sqrt (dot a a).

Definition vsub (a b : vec) : vec := zip_with Rminus a b.

(** [F.normalize(x, dim=-1)], with its default [eps]. *)
Definition normalize_eps : R := / 10 ^ 12.

Definition normalize (x : vec) : vec :=
  map (fun a => a / Rmax (norm x) normalize_eps) x.

Definition spherical_dist_loss (x y : vec) : R :=
  let x := normalize x in
  let y := normalize y in
  (asin (norm (vsub x y) / 2)) ^ 2 * 2.

(** [t.arcsin()] on one entry: NaN outside [[-1, 1]]. *)
Definition farcsin (a : fval) : fval :=
  match a with
  | Fin r =>
      if Rle_dec (-1) r
      then if Rle_dec r 1 then Fin (asin r) else NaN
      else NaN
  | PInf | NInf | NaN => NaN
  end.

(** [h.arcsin().pow(2).mul(2)], the last three steps of
    [spherical_dist_loss], on a half chord [h] as it was computed. *)
Definition arcsin_pow_mul (h : fval) : fval :=
  fmul (fmul (farcsin h) (farcsin h)) (Fin 2).

(** The angle between two embeddings, in [[0, PI]]. *)
Definition angle (x y : vec) : R := acos (dot (normalize x) (normalize y)).

(** ** [cond_fn] *)

Section Guidance.

Variable model_stat : Type.

(** Lines 583-587: [x_in] as a function of [x] (the model's prediction
    blended with the sample). *)
Variable blend : tensor -> tensor.

(** Lines 603-632 for one model and one pass [i]: the gradient of
    [losses.sum() * args.clip_guidance_scale] at [x_in], for the cutout
    counts read from the schedules.  Building the cutouts or embedding
    them may raise. *)
Variable clip_grad :
  model_stat -> Z -> Z -> Z -> Q -> tensor -> result tensor.

(** Lines 635-643: the gradient of the three auxiliary losses at [x_in]. *)
Variable aux_grad : tensor -> tensor.

(** Line 645: [torch.autograd.grad(x_in, x, v)[0]], the product of [v]
    with the Jacobian of [x_in] with respect to [x]. *)
Variable backprop : tensor -> tensor -> tensor.

Record guidance_args : Type := {
  cutn_batches : Z;
  clamp_grad : bool;
  clamp_max : R;
  cut_overview : list Z;
  cut_innercut : list Z;
  cut_icgray_p : list Q
}.

Variable args : guidance_args.

(** The loop [for i in range(args.cutn_batches)] for one model. *)
Fixpoint cutn_loop (ms : model_stat) (t : Z) (x_in : tensor)
         (passes : list Z) (x_in_grad : tensor) : result tensor :=
  match passes with
  | [] => Ok x_in_grad
  | i :: rest =>
      (ov <- py_getitem (cut_overview args) (schedule_index t) ;;
       ic <- py_getitem (cut_innercut args) (schedule_index t) ;;
       gp <- py_getitem (cut_icgray_p args) (schedule_index t) ;;
       g <- clip_grad ms i ov ic gp x_in ;;
       let g := tmap (fun a => fdiv a (Fin (IZR (cutn_batches args)))) g in
       cutn_loop ms t x_in rest (tadd x_in_grad g))%py
  end.

(** The loop [for model_stat in model_stats]. *)
Fixpoint model_loop (model_stats : list model_stat) (t : Z)
         (x_in : tensor) (x_in_grad : tensor) : result tensor :=
  match model_stats with
  | [] => Ok x_in_grad
  | ms :: rest =>
      (g <- cutn_loop ms t x_in (range (cutn_batches args)) x_in_grad ;;
       model_loop rest t x_in g)%py
  end.

(** Lines 587-643: the gradient accumulated in [x_in_grad]. *)
Definition raw_gradient (model_stats : list model_stat) (x : tensor)
           (t : Z) : result tensor :=
  let x_in := blend x in
  (g <- model_loop model_stats t x_in (zeros_like x_in) ;;
   Ok (tadd g (aux_grad x_in)))%py.

(** Line 652: [grad * magnitude.clamp(max=args.clamp_max) / magnitude],
    for the [magnitude] of line 650. *)
Definition clamp_by (magnitude : fval) (grad : tensor) : tensor :=
  tmap (fun a => fdiv (fmul a (fclamp_max magnitude (clamp_max args)))
                      magnitude) grad.

(** Lines 649-653. *)
Definition clamp (grad : tensor) : tensor :=
  let magnitude := fsqrt (tmean (tsquare grad)) in
  clamp_by magnitude grad.

(** Lines 644-654. *)
Definition finish (x x_in_grad : tensor) : tensor :=
  let '(x_is_NaN, grad) :=
    if negb (tany isnan x_in_grad)
    then (false, tneg (backprop x x_in_grad))
    else (true, zeros_like x) in
  if clamp_grad args && negb x_is_NaN then clamp grad else grad.

Definition cond_fn (model_stats : list model_stat) (x : tensor) (t : Z)
  : result tensor :=
  (x_in_grad <- raw_gradient model_stats x t ;;
   Ok (finish x x_in_grad))%py.

End Guidance.

(** The weights [parse_prompt] gives for a list of prompts. *)
Definition parsed_weights (prompts : list str) : result (list Q) :=
  for_each (fun p => ('(_, w) <- parse_prompt p ;; Ok w)%py) prompts.

(** Whether [c] occurs in [s]. *)
Definition occurs (c : ascii) (s : str) : bool := existsb (Ascii.eqb c) s.

(** ** Root mean square and cosine similarity of real vectors *)

Definition rms (g : vec) : R := sqrt (dot g g / INR (List.length g)).

Definition cosine_similarity (a b : vec) : R := dot a b / (norm a * norm b).

(** ** Stand-ins for the collaborators

    Small concrete collaborators, for statements about one particular run:
    a CLIP model whose tokens and embeddings are the prompt itself, a
    sampler that always completes, and a diffusion model whose prediction
    does not depend on the sample, met at a step whose factor
    [sqrt_one_minus_alphas_cumprod[cur_t]] is one half. *)

Definition echo_tokenize (s : str) : str := s.
Definition echo_encode_text (_ : unit) (t : str) : str := t.
Definition steady_sampler (_ : list (model_stat unit str)) (_ : Z)
  : result unit := Ok tt.

Definition half_blend (x : tensor) : tensor :=
  tmap (fun a => fadd (Fin (1 / 2)) (fmul a (Fin (1 - 1 / 2)))) x.
Definition half_backprop (_ v : tensor) : tensor :=
  tmap (fun a => fmul a (Fin (1 - 1 / 2))) v.
Definition no_aux_grad (x_in : tensor) : tensor := zeros_like x_in.

(** A CLIP gradient whose first entry is [spike], the others zero. *)
Definition spiked_clip_grad (spike : fval) (_ : unit) (_ _ _ : Z) (_ : Q)
           (x_in : tensor) : result tensor :=
  Ok {| shape := shape x_in;
        data := match data x_in with
                | [] => []
                | _ :: rest => spike :: map (fun _ => Fin 0) rest
                end |}.

Definition one_pixel : tensor :=
  {| shape := [1; 1; 1; 1]%nat; data := [Fin 0] |}.

(** One outcome of the random draws, the same at every loop index, and
    the shape of one 512 by 512 colour image. *)
Definition fixed_draws : draws :=
  {| normal_ := fun _ => (8 # 10)%Q;
     rand := fun _ => (1 # 2)%Q;
     randint_x := fun _ => 7%Z;
     randint_y := fun _ => 3%Z |}.

Definition image_512 : shape4 :=
  {| dim0 := 1; dim1 := 3; dim2 := 512; dim3 := 512 |}.

(** How many of the cutouts are the whole image. *)
Definition count_whole (cutouts : list cutout) : nat :=
  List.length
    (filter (fun c => match taken_from c with Whole => true | _ => false end)
            cutouts).

(** The guidance arguments [create] documents as defaults, with the
    schedules and the ceiling left open. *)
Definition guidance_with (overview innercut : list_expr Z)
           (icgray_p : list_expr Q) (ceiling : R) : guidance_args :=
  {| cutn_batches := 4;
     clamp_grad := true;
     clamp_max := ceiling;
     cut_overview := eval overview;
     cut_innercut := eval innercut;
     cut_icgray_p := eval icgray_p |}.

Definition default_guidance_args : guidance_args :=
  guidance_with default_cut_overview default_cut_innercut
                default_cut_icgray_p (5 / 100).

(** ** Further parts of the source

    What follows embeds the functions of the file that the statements
    above did not need. *)

(** [side_x = (args.width_height[0] // 64) * 64], and likewise [side_y]
    (lines 446-447). *)
Definition round_side (requested : Z) : Z := ((requested / 64) * 64)%Z.

(** ** [load_clip_models]

    The cache [clip_models] is a Python dict, kept here as the list of its
    bindings in insertion order.  It is shared with the caller (the
    module-level [_clip_models_cache]), so the function is given with the
    state it leaves the cache in.  A dict iterator raises [RuntimeError] at
    the first step taken after the size of the dict has changed. *)

Definition str_eqb (a b : str) : bool :=
  if list_eq_dec ascii_dec a b then true else false.

(** [k in names] for a list of names. *)
Definition list_contains (k : str) (names : list str) : bool :=
  existsb (str_eqb k) names.

Section ClipCache.

Variable clip : Type.

(** [clip.load(k, jit=False)[0].eval().requires_grad_(False).to(device)],
    which raises for a name it does not know. *)
Variable clip_load : str -> result clip.

Definition pydict : Type := list (str * clip).

(** [k in d] *)
Definition dict_contains (k : str) (d : pydict) : bool :=
  existsb (fun kv => str_eqb k (fst kv)) d.

(** [d.pop(k)] for a key that is present. *)
Fixpoint dict_pop (k : str) (d : pydict) : pydict :=
  match d with
  | [] => []
  | kv :: d' => if str_eqb k (fst kv) then d' else kv :: dict_pop k d'
  end.

(** Lines 116-118. *)
Fixpoint load_enabled (enabled : list str) (d : pydict)
  : result unit * pydict :=
  match enabled with
  | [] => (Ok tt, d)
  | k :: ks =>
      if negb (dict_contains k d) then
        match clip_load k with
        | Ok m => load_enabled ks (d ++ [(k, m)])
        | Raise e => (Raise e, d)
        end
      else load_enabled ks d
  end.

(** Lines 121-123: the loop [for k in clip_models], over the keys the
    dict had when the loop began, [used] being its size then. *)
Fixpoint disable_others (enabled : list str) (used : nat)
         (keys : list str) (d : pydict) : result unit * pydict :=
  if negb (List.length d =? used)%nat then (Raise RuntimeError, d)
  else
    match keys with
    | [] => (Ok tt, d)
    | k :: ks =>
        disable_others enabled used ks
          (if negb (list_contains k enabled) then dict_pop k d else d)
    end.

Definition load_clip_models (enabled : list str) (clip_models : pydict)
  : result (list clip) * pydict :=
  match load_enabled enabled clip_models with
  | (Raise e, d) => (Raise e, d)
  | (Ok _, d) =>
      match disable_others enabled (List.length d) (map fst d) d with
      | (Raise e, d') => (Raise e, d')
      | (Ok _, d') => (Ok (map snd d'), d')
      end
  end.

End ClipCache.

(** ** [sinc], [lanczos], [ramp] and [resample] *)

Definition sinc (x : R) : R :=
  if Req_dec_T x 0 then 1 else sin (PI * x) / (PI * x).

(** The value of [lanczos] at one point, before the division by the sum. *)
Definition lanczos_window (a x : R) : R :=
  if Rlt_dec (- a) x
  then if Rlt_dec x a then sinc x * sinc (x / a) else 0
  else 0.

Definition lanczos (x : list R) (a : R) : list fval :=
  let out := map (lanczos_window a) x in
  map (fun v => fdiv (Fin v) (Fin (fold_right Rplus 0 out))) out.

(** [t[1:-1]] *)
Definition strip_ends {A : Type} (t : list A) : list A := removelast (tl t).

(** The scalars of [ramp] and [resample] are Python floats.  [fl q] is the
    double that a float operation returns when its exact result is [q];
    the entries of the tensors are kept exact, as everywhere else. *)
Section PythonFloats.

Variable fl : Q -> Q.

(** The loop of [ramp] (lines 272-275). *)
Fixpoint ramp_fill (n : nat) (cur ratio : Q) : list Q :=
  match n with
  | O => []
  | S n' => cur :: ramp_fill n' (fl (cur + ratio)) ratio
  end.

Definition ramp (ratio width : Q) : result (list Q) :=
  if Qeq_bool ratio 0 then Raise ZeroDivisionError
  else
    let n := Qceiling (fl (fl (width / ratio) + 1))%Q in
    if (n <? 0)%Z then Raise RuntimeError
    else
      let out := ramp_fill (Z.to_nat n) 0%Q ratio in
      Ok (strip_ends (map Qopp (rev (tl out)) ++ out)).

(** [lanczos(ramp(d / s, 2), 2)], the kernel that takes a side of length
    [s] down to [d]. *)
Definition resample_kernel (d s : Z) : result (list fval) :=
  (if (s =? 0)%Z then Raise ZeroDivisionError
   else
     xs <- ramp (fl (inject_Z d / inject_Z s)) 2%Q ;;
     Ok (lanczos (map Q2R xs) 2))%py.

(** One of the two passes of [resample] (lines 417-421 and 423-427): the
    length of a side [s] after the reflect padding and the convolution
    that prepare its reduction to [d].  The padding must be shorter than
    the side and the kernel must not be empty. *)
Definition resample_pass (d s : Z) : result Z :=
  (if (d <? s)%Z then
     kernel <- resample_kernel d s ;;
     let klen := Z.of_nat (List.length kernel) in
     let pad := ((klen - 1) / 2)%Z in
     if (klen =? 0)%Z || (s <=? pad)%Z then Raise RuntimeError
     else Ok (s + 2 * pad - (klen - 1))%Z
   else Ok s)%py.

(** The shape [resample] returns, for a batch of at least one image with
    at least one channel.  [reshape] wants the number of entries
    unchanged, and [F.interpolate] wants positive sizes on both ends. *)
Definition resample (input : shape4) (size : Z * Z) : result shape4 :=
  (let n := dim0 input in
   let c := dim1 input in
   let h := dim2 input in
   let w := dim3 input in
   let '(dh, dw) := size in
   h' <- resample_pass dh h ;;
   w' <- resample_pass dw w ;;
   if negb (n * c * 1 * h' * w' =? n * c * h * w)%Z then Raise RuntimeError
   else if (h <=? 0)%Z || (w <=? 0)%Z || (dh <=? 0)%Z || (dw <=? 0)%Z
   then Raise RuntimeError
   else Ok {| dim0 := n; dim1 := c; dim2 := dh; dim3 := dw |})%py.

End PythonFloats.

(** Rounding to the nearest double: the relative error of an operation
    is at most [2 ^ -53]. *)
Definition double_eps : Q := 1 # 9007199254740992.

Definition double_precision (fl : Q -> Q) : Prop :=
  forall q, (Qabs (fl q - q) <= double_eps * Qabs q)%Q.

(** The tensor a cutout of [MakeCutouts] is cut as, before it goes
    through [resample]: a clone of the padded image (line 308) or a square
    window of it (line 319). *)
Definition source_shape (padded : shape4) (c : cutout) : shape4 :=
  match taken_from c with
  | Whole => padded
  | Window _ _ size =>
      {| dim0 := dim0 padded; dim1 := dim1 padded;
         dim2 := size; dim3 := size |}
  end.

(** ** The auxiliary losses of [do_run]

    On the entries of one sample, as real numbers: the entries are
    finite and the arithmetic is exact, so a sample that holds a NaN or
    an infinity, and a square that overflows, are outside these
    definitions.  A mean over no entry at all is NaN. *)

Definition rsum (l : list R) : R := fold_right Rplus 0 l.

(** [t.mean()] *)
Definition fmean (l : list R) : fval :=
  fdiv (Fin (rsum l)) (Fin (INR (List.length l))).

(** [x.clamp(-1, 1)] on one entry. *)
Definition clamp_unit (x : R) : R := Rmin (Rmax x (-1)) 1.

(** [range_loss] (lines 574-575), for one sample of the batch. *)
Definition range_loss (sample : list R) : fval :=
  fmean (map (fun x => (x - clamp_unit x) ^ 2) sample).

(** [sat_losses] (line 637). *)
Definition sat_losses (x_in : list R) : fval :=
  fmean (map (fun x => Rabs (x - clamp_unit x)) x_in).

(** One channel of an image: its rows. *)
Definition channel : Type := list (list R).

(** [F.pad(input, (0, 1, 0, 1), 'replicate')] on one channel: the last
    column is repeated on the right, then the last row at the bottom. *)
Definition replicate_pad (ch : channel) : channel :=
  let rows := map (fun row => row ++ [last row 0]) ch in
  rows ++ [last rows []].

(** [input[..., :-1, 1:] - input[..., :-1, :-1]], row by row. *)
Definition x_diff (padded : channel) : channel :=
  map (fun row => zip_with Rminus (tl row) (removelast row))
      (removelast padded).

(** [input[..., 1:, :-1] - input[..., :-1, :-1]] *)
Definition y_diff (padded : channel) : channel :=
  zip_with (fun below row => zip_with Rminus (removelast below) (removelast row))
           (tl padded) (removelast padded).

(** [x_diff ** 2 + y_diff ** 2] on one channel, entry by entry. *)
Definition tv_terms (ch : channel) : list R :=
  let padded := replicate_pad ch in
  List.concat (zip_with (zip_with (fun dx dy => dx ^ 2 + dy ^ 2))
                   (x_diff padded) (y_diff padded)).

(** [tv_loss] (lines 567-572), for one sample: the mean over its
    channels, rows and columns. *)
Definition tv_loss (sample : list channel) : fval :=
  fmean (List.concat (map tv_terms sample)).

(** ** The Perlin initialiser *)

(** [interp] (lines 452-453). *)
Definition interp (t : R) : R := 3 * t ^ 2 - 2 * t ^ 3.

(** One entry of [dots] in [perlin] (lines 459-465): the four gradients
    at the corners of a cell, blended at the point [(xs, ys)] of the cell. *)
Definition perlin_dot (g00 g10 g01 g11 : R * R) (xs ys : R) : R :=
  let wx := 1 - interp xs in
  let wy := 1 - interp ys in
  0
  + wx * wy * (fst g00 * xs + snd g00 * ys)
  + (1 - wx) * wy * (- fst g10 * (1 - xs) + snd g10 * ys)
  + wx * (1 - wy) * (fst g01 * xs - snd g01 * (1 - ys))
  + (1 - wx) * (1 - wy) * (- fst g11 * (1 - xs) - snd g11 * (1 - ys)).

(** The shape of what [perlin (width, height, scale)] returns:
    [view(width * scale, height * scale)]. *)
Definition perlin_shape (width height scale : Z) : Z * Z :=
  (width * scale, height * scale)%Z.

(** The inner loop of [perlin_ms] (lines 475-480): the shape of the field
    each octave adds. *)
Fixpoint octave_shapes (octaves : list Q) (scale oct_width oct_height : Z)
  : list (Z * Z) :=
  match octaves with
  | [] => []
  | _ :: rest =>
      perlin_shape oct_width oct_height scale
      :: octave_shapes rest (scale / 2)%Z (oct_width * 2)%Z (oct_height * 2)%Z
  end.

(** The scales the octaves are drawn at. *)
Fixpoint octave_scales (octaves : list Q) (scale : Z) : list Z :=
  match octaves with
  | [] => []
  | _ :: rest => scale :: octave_scales rest (scale / 2)%Z
  end.

Definition perlin_ms_shapes (octaves : list Q) (width height : Z)
  : list (Z * Z) :=
  octave_shapes octaves (2 ^ Z.of_nat (List.length octaves))%Z width height.

(** A cutout that is a window lies inside an image of the given sides
    and is not empty. *)
Definition window_inside (sideY sideX : Z) (c : cutout) : Prop :=
  match taken_from c with
  | Whole => True
  | Window offsety offsetx size =>
      (0 < size /\ 0 <= offsety /\ offsety + size <= sideY
       /\ 0 <= offsetx /\ offsetx + size <= sideX)%Z
  end.

(** ** The preview frames of one output

    The loop over the sampler's states (lines 715-731), for [j] states
    already seen: the images it captures, each with the [cur_t] it is
    tagged with.  A state is given by the images of its [pred_xstart]. *)

Fixpoint preview_loop {I : Type} (display_rate cur_t j : Z)
         (samples : list (list I)) : result (list (Z * I)) :=
  match samples with
  | [] => Ok []
  | sample :: rest =>
      let cur_t := (cur_t - 1)%Z in
      if (display_rate =? 0)%Z then Raise ZeroDivisionError
      else
        let shown := ((j mod display_rate =? 0) || (cur_t =? -1))%Z in
        (frames <- preview_loop display_rate cur_t (j + 1)%Z rest ;;
         Ok ((if shown then map (pair cur_t) sample else []) ++ frames))%py
  end.

(** The frames of one output, from
    [cur_t = diffusion.num_timesteps - skip_steps - 1] (line 680). *)
Definition previews {I : Type} (num_timesteps skip_steps display_rate : Z)
           (samples : list (list I)) : result (list (Z * I)) :=
  preview_loop display_rate (num_timesteps - skip_steps - 1)%Z 0%Z samples.

(** ** Tactics *)

(** Evaluation of a closed term with the operations on the reals left
    folded, and the comparisons it meets settled by [lra]. *)
Ltac eval_py :=
  lazy beta iota zeta delta
    -[Rle_dec Rlt_dec Req_dec_T Rmin sqrt IZR
      Rdiv Rminus Rmult Rplus Ropp Rinv].

Ltac settle_with d a b :=
  first [ destruct (d a b) as [_|?]; [|exfalso; lra]
        | destruct (d a b) as [?|_]; [exfalso; lra|] ].

Ltac settle_real :=
  match goal with
  | |- context [Rle_dec ?a ?b] => settle_with Rle_dec a b
  | |- context [Rlt_dec ?a ?b] => settle_with Rlt_dec a b
  | |- context [Req_dec_T ?a ?b] => settle_with Req_dec_T a b
  end.

(* ================================================================== *)
(** * Part II: properties                                              *)
(* ================================================================== *)

(** ** Prompt parsing *)

Lemma occurs_false_cons c a s :
  occurs c (a :: s) = false -> Ascii.eqb a c = false /\ occurs c s = false.
Proof.
  unfold occurs; simpl; intros H.
  apply orb_false_iff in H as [H1 H2].
  rewrite Ascii.eqb_sym in H1. auto.
Qed.

Lemma cut_last_absent sep s :
  occurs sep s = false -> cut_last sep s = None.
Proof.
  induction s as [|a s IH]; simpl; intros H; [reflexivity|].
  apply occurs_false_cons in H as [Ha Hs].
  rewrite (IH Hs), Ha. reflexivity.
Qed.

Lemma cut_last_app sep a b :
  occurs sep b = false -> cut_last sep (a ++ sep :: b) = Some (a, b).
Proof.
  intros Hb. induction a as [|c a IH]; simpl.
  - rewrite (cut_last_absent _ _ Hb), Ascii.eqb_refl. reflexivity.
  - rewrite IH. reflexivity.
Qed.

Lemma cut_last_present sep s :
  occurs sep s = true ->
  exists a b, s = a ++ sep :: b /\ occurs sep b = false.
Proof.
  unfold occurs.
  induction s as [|c s IH]; simpl; intros H; [discriminate|].
  destruct (existsb (Ascii.eqb sep) s) eqn:Hs.
  - destruct (IH eq_refl) as (a & b & -> & Hb).
    exists (c :: a), b. split; [reflexivity | exact Hb].
  - rewrite orb_false_r in H.
    apply Ascii.eqb_eq in H. subst c.
    exists [], s. split; [reflexivity | exact Hs].
Qed.

Lemma rsplit_once sep n a b :
  occurs sep b = false ->
  rsplit sep (S n) (a ++ sep :: b) = rsplit sep n a ++ [b].
Proof. intros Hb. simpl. rewrite (cut_last_app _ _ _ Hb). reflexivity. Qed.

(** A URL prompt with a weight: everything before the last colon is the
    text, whatever colons it holds. *)
Lemma parse_prompt_url pre w :
  startswith (lit "http://") (pre ++ colon :: w) = true
  \/ startswith (lit "https://") (pre ++ colon :: w) = true ->
  occurs colon pre = true ->
  occurs colon w = false ->
  parse_prompt (pre ++ colon :: w) = (q <- float w ;; Ok (pre, q))%py.
Proof.
  intros Hurl Hpre Hw.
  destruct (cut_last_present _ _ Hpre) as (p1 & mid & -> & Hmid).
  unfold parse_prompt.
  replace (startswith (lit "http://") ((p1 ++ colon :: mid) ++ colon :: w)
           || startswith (lit "https://") ((p1 ++ colon :: mid) ++ colon :: w))
    with true by (destruct Hurl as [-> | ->]; [|rewrite orb_true_r]; reflexivity).
  rewrite (rsplit_once _ 1 _ _ Hw), (rsplit_once _ 0 _ _ Hmid).
  reflexivity.
Qed.

(** A prompt that is not a URL: one cut at the last colon. *)
Lemma parse_prompt_plain pre w :
  startswith (lit "http://") (pre ++ colon :: w) = false ->
  startswith (lit "https://") (pre ++ colon :: w) = false ->
  occurs colon w = false ->
  parse_prompt (pre ++ colon :: w) = (q <- float w ;; Ok (pre, q))%py.
Proof.
  intros H1 H2 Hw. unfold parse_prompt. rewrite H1, H2. simpl orb. cbv iota.
  rewrite (rsplit_once _ 0 _ _ Hw). reflexivity.
Qed.

Lemma cut_last_some_occurs sep s a b :
  cut_last sep s = Some (a, b) -> occurs sep s = true.
Proof.
  intros H. destruct (occurs sep s) eqn:Ho; [reflexivity|].
  rewrite (cut_last_absent _ _ Ho) in H. discriminate.
Qed.

Lemma occurs_app c a b : occurs c (a ++ b) = occurs c a || occurs c b.
Proof. unfold occurs. apply existsb_app. Qed.

Lemma startswith_occurs c p s :
  startswith p s = true -> occurs c p = true -> occurs c s = true.
Proof.
  revert s. induction p as [|a p IH]; intros s Hs Hp; [discriminate|].
  destruct s as [|b s]; [discriminate|]. simpl in Hs.
  apply andb_true_iff in Hs as [Hab Hs]. apply Ascii.eqb_eq in Hab. subst b.
  unfold occurs in *. simpl in *.
  destruct (Ascii.eqb c a); [reflexivity|]. simpl in *. apply IH; assumption.
Qed.

(** A prompt with no colon: the default weight. *)
Lemma parse_prompt_no_colon prompt :
  occurs colon prompt = false -> parse_prompt prompt = Ok (prompt, 1%Q).
Proof.
  intros Hno. unfold parse_prompt.
  assert (Hany : forall p, occurs colon p = true ->
                           startswith p prompt = false).
  { intros p Hp. destruct (startswith p prompt) eqn:E; [|reflexivity].
    rewrite (startswith_occurs colon _ _ E Hp) in Hno. discriminate. }
  pose proof (Hany (lit "http://") eq_refl) as H1.
  pose proof (Hany (lit "https://") eq_refl) as H2.
  rewrite H1, H2. simpl. rewrite (cut_last_absent _ _ Hno). reflexivity.
Qed.

(** A URL whose only colon is the one of its scheme: the default weight. *)
Lemma parse_prompt_bare_url scheme rest :
  startswith (lit "http://") (scheme ++ colon :: rest) = true
  \/ startswith (lit "https://") (scheme ++ colon :: rest) = true ->
  occurs colon scheme = false ->
  occurs colon rest = false ->
  parse_prompt (scheme ++ colon :: rest) = Ok (scheme ++ colon :: rest, 1%Q).
Proof.
  intros Hurl Hs Hr. unfold parse_prompt.
  replace (startswith (lit "http://") (scheme ++ colon :: rest)
           || startswith (lit "https://") (scheme ++ colon :: rest))
    with true
    by (destruct Hurl as [-> | ->]; [|rewrite orb_true_r]; reflexivity).
  rewrite (rsplit_once _ 1 _ _ Hr). simpl.
  rewrite (cut_last_absent _ _ Hs). reflexivity.
Qed.

(** C5, as the code has it.  [parse_prompt] reads ["sunset:2.5"] as the
    text ["sunset"] with weight 2.5 and gives ["sunset"], as any prompt
    with no colon at all, the weight 1.  A prompt that holds a colon and is
    not a URL is cut at its last colon, and what follows is handed to
    [float], which raises when it is not a number: there is no default
    weight then.  In a prompt that starts with [http://] or [https://] the
    colon of the scheme is no separator: alone it leaves the whole prompt
    as the text with weight 1, and with a further colon only what follows
    the last one is the weight, so that ["http://x.com/a:b.png:3"] is the
    text ["http://x.com/a:b.png"] with weight 3. *)
Theorem parse_prompt_weight_rule :
  parse_prompt (lit "sunset:2.5") = Ok (lit "sunset", 5 # 2)%Q
  /\ parse_prompt (lit "sunset") = Ok (lit "sunset", 1%Q)
  /\ parse_prompt (lit "http://x.com/a:b.png:3")
     = Ok (lit "http://x.com/a:b.png", 3%Q)
  /\ (forall prompt,
        occurs colon prompt = false ->
        parse_prompt prompt = Ok (prompt, 1%Q))
  /\ (forall pre w,
        startswith (lit "http://") (pre ++ colon :: w) = false ->
        startswith (lit "https://") (pre ++ colon :: w) = false ->
        occurs colon w = false ->
        parse_prompt (pre ++ colon :: w) = (q <- float w ;; Ok (pre, q))%py)
  /\ (forall scheme rest,
        startswith (lit "http://") (scheme ++ colon :: rest) = true
        \/ startswith (lit "https://") (scheme ++ colon :: rest) = true ->
        occurs colon scheme = false ->
        occurs colon rest = false ->
        parse_prompt (scheme ++ colon :: rest)
        = Ok (scheme ++ colon :: rest, 1%Q))
  /\ (forall pre w,
        startswith (lit "http://") (pre ++ colon :: w) = true
        \/ startswith (lit "https://") (pre ++ colon :: w) = true ->
        occurs colon pre = true ->
        occurs colon w = false ->
        parse_prompt (pre ++ colon :: w) = (q <- float w ;; Ok (pre, q))%py).
Proof.
  split; [vm_compute; reflexivity|].
  split; [vm_compute; reflexivity|].
  split; [vm_compute; reflexivity|].
  split; [exact parse_prompt_no_colon|].
  split; [exact parse_prompt_plain|].
  split; [exact parse_prompt_bare_url | exact parse_prompt_url].
Qed.

Lemma parse_prompt_weight_rule_witness :
  parse_prompt (lit "a lighthouse") = Ok (lit "a lighthouse", 1%Q)
  /\ parse_prompt (lit "ratio 16:9, night" ++ colon :: lit "2")
     = Ok (lit "ratio 16:9, night", 2%Q)
  /\ parse_prompt (lit "https" ++ colon :: lit "//x.com/a.png")
     = Ok (lit "https" ++ colon :: lit "//x.com/a.png", 1%Q)
  /\ parse_prompt (lit "https://a.b/c:d" ++ colon :: lit "-0.5")
     = Ok (lit "https://a.b/c:d", - (1 # 2))%Q.
Proof.
  destruct parse_prompt_weight_rule
    as (_ & _ & _ & Hnone & Hplain & Hbare & Hurl).
  split; [|split; [|split]].
  - apply Hnone. reflexivity.
  - rewrite (Hplain (lit "ratio 16:9, night") (lit "2")); reflexivity.
  - apply Hbare; [right; reflexivity | reflexivity | reflexivity].
  - rewrite (Hurl (lit "https://a.b/c:d") (lit "-0.5"));
      [reflexivity | right; reflexivity | reflexivity | reflexivity].
Defined.

(** A colon that is not followed by a number: no default weight, the
    call raises.  So does a URL that holds a port. *)
Lemma colon_without_weight_raises :
  parse_prompt (lit "Portrait: a woman") = Raise ValueError
  /\ parse_prompt (lit "ratio 16:9, night") = Raise ValueError
  /\ parse_prompt (lit "http://x.com:8080/a.png") = Raise ValueError.
Proof. repeat split; vm_compute; reflexivity. Qed.

(** ** Model statistics and the batch loop of [do_run] *)

Section DoRunFacts.

Variable clip_model : Type.
Variable tokens : Type.
Variable embedding : Type.
Variable tokenize : str -> tokens.
Variable encode_text : clip_model -> tokens -> embedding.
Variable run_sampler :
  list (model_stat clip_model embedding) -> Z -> result unit.

Local Abbreviation stat := (model_stat clip_model embedding).
Local Abbreviation embed m := (fun p => encode_text m (tokenize p)).
Local Abbreviation mk_stat := (make_model_stat tokenize encode_text).
Local Abbreviation mk_stats := (make_model_stats tokenize encode_text).
Local Abbreviation run := (do_run tokenize encode_text run_sampler).

Lemma prompt_loop_spec m prompts :
  forall embeds ws,
    prompt_loop tokenize encode_text m prompts embeds ws
    = (ws' <- parsed_weights prompts ;;
       Ok (embeds ++ map (embed m) prompts, ws ++ ws'))%py.
Proof.
  unfold parsed_weights.
  induction prompts as [|p ps IH]; intros embeds ws; simpl.
  - rewrite !app_nil_r. reflexivity.
  - destruct (parse_prompt p) as [[txt w]|e]; simpl; [|reflexivity].
    rewrite IH.
    destruct (for_each _ ps) as [ws'|e]; simpl; [|reflexivity].
    rewrite <- !app_assoc. reflexivity.
Qed.

Lemma parsed_weights_length prompts ws :
  parsed_weights prompts = Ok ws -> List.length ws = List.length prompts.
Proof.
  unfold parsed_weights. revert ws.
  induction prompts as [|p ps IH]; simpl; intros ws H.
  - injection H as <-. reflexivity.
  - destruct (parse_prompt p) as [[txt w]|e]; simpl in H; [|discriminate].
    destruct (for_each _ ps) as [ws'|e]; simpl in H; [|discriminate].
    injection H as <-. simpl. f_equal. apply IH. reflexivity.
Qed.

(** The outcome of one pass of the model loop, by the sum of the tensor
    of weights. *)
Lemma make_model_stat_spec m prompts ws :
  parsed_weights prompts = Ok ws ->
  mk_stat m prompts
  = if f32_lt (f32_abs (weights_sum (weights_tensor ws))) weights_floor
    then Raise RuntimeError
    else Ok {| stat_clip_model := m;
               target_embeds := map (embed m) prompts;
               weights := weights_div (weights_tensor ws)
                            (f32_abs (weights_sum (weights_tensor ws))) |}.
Proof.
  intros Hws. unfold make_model_stat.
  rewrite prompt_loop_spec, Hws. simpl.
  destruct prompts as [|p ps]; simpl.
  - apply parsed_weights_length in Hws.
    destruct ws; [|discriminate]. reflexivity.
  - reflexivity.
Qed.

Lemma make_model_stat_ok m prompts st :
  mk_stat m prompts = Ok st ->
  exists ws,
    parsed_weights prompts = Ok ws
    /\ f32_lt (f32_abs (weights_sum (weights_tensor ws))) weights_floor
       = false
    /\ st = {| stat_clip_model := m;
               target_embeds := map (embed m) prompts;
               weights := weights_div (weights_tensor ws)
                            (f32_abs (weights_sum (weights_tensor ws))) |}.
Proof.
  intros H. destruct (parsed_weights prompts) as [ws|e] eqn:Hws.
  - rewrite (make_model_stat_spec m _ Hws) in H.
    destruct (f32_lt _ _) eqn:Hlt; [discriminate|].
    injection H as <-. exists ws.
    split; [reflexivity|]. split; [exact Hlt | reflexivity].
  - unfold make_model_stat in H.
    rewrite prompt_loop_spec, Hws in H. discriminate.
Qed.


(** C10.  The target embedding of every prompt is [encode_text] of the
    tokens of the prompt as it was given, weight suffix included; of what
    [parse_prompt] returns only the weight is kept. *)
Theorem target_embeds_of_raw_prompts m (prompts : list str) st :
  mk_stat m prompts = Ok st ->
  target_embeds st = map (fun p => encode_text m (tokenize p)) prompts
  /\ exists ws,
       parsed_weights prompts = Ok ws
       /\ weights st
          = weights_div (weights_tensor ws)
                        (f32_abs (weights_sum (weights_tensor ws))).
Proof.
  intros H. destruct (make_model_stat_ok _ _ H) as (ws & Hws & _ & ->).
  split; [reflexivity|]. exists ws. split; [exact Hws | reflexivity].
Qed.

Lemma batch_loop_log stats s nbs :
  exists done,
    (done <= List.length nbs)%nat
    /\ snd (batch_loop run_sampler stats s nbs)
       = flat_map (generation s) (firstn done nbs)
    /\ (fst (batch_loop run_sampler stats s nbs) = Ok tt ->
        done = List.length nbs)
    /\ ((forall i, In i nbs -> run_sampler stats i = Ok tt) ->
        fst (batch_loop run_sampler stats s nbs) = Ok tt).
Proof.
  induction nbs as [|i nbs (done & Hle & Hlog & Hok & Hall)]; simpl.
  - exists 0%nat. repeat split; auto.
  - destruct (run_sampler stats i) as [[]|e] eqn:Hi.
    + destruct (batch_loop run_sampler stats s nbs) as [r log].
      simpl in *. exists (S done). simpl.
      repeat split.
      * lia.
      * rewrite Hlog. reflexivity.
      * intros Hr. f_equal. apply Hok, Hr.
      * intros Hs. apply Hall. intros j Hj. apply Hs. right. exact Hj.
    + exists 1%nat. simpl. rewrite ?app_nil_r. repeat split.
      * lia.
      * discriminate.
      * intros Hs. rewrite (Hs i) in Hi by (left; reflexivity). discriminate.
Qed.

Lemma firstn_seq_le (done start len : nat) :
  (done <= len)%nat -> firstn done (seq start len) = seq start done.
Proof.
  revert start len. induction done as [|d IH]; intros start len H;
    [reflexivity|].
  destruct len as [|len]; [lia|]. simpl. f_equal. apply IH. lia.
Qed.

Lemma firstn_range (done : nat) (n : Z) :
  (done <= Z.to_nat n)%nat ->
  firstn done (range n) = map Z.of_nat (seq 0 done).
Proof.
  intros H. unfold range. rewrite firstn_map, firstn_seq_le by exact H.
  reflexivity.
Qed.


End DoRunFacts.



Lemma target_embeds_of_raw_prompts_witness :
  exists st,
    make_model_stat echo_tokenize echo_encode_text tt [lit "sunset:2.5"]
    = Ok st
    /\ target_embeds st = [lit "sunset:2.5"]
    /\ target_embeds st <> [lit "sunset"].
Proof.
  assert (H : make_model_stat echo_tokenize echo_encode_text tt
                              [lit "sunset:2.5"]
              = Ok {| stat_clip_model := tt;
                      target_embeds := [lit "sunset:2.5"];
                      weights := [F32 1] |})
    by (vm_compute; reflexivity).
  eexists. split; [exact H|]. split.
  - apply (@target_embeds_of_raw_prompts
             unit str str echo_tokenize echo_encode_text tt
             [lit "sunset:2.5"] _ H).
  - discriminate.
Defined.


(** ** Schedule lookups *)

Lemma getitem_nat_ok {A : Type} (l : list A) (i : nat) :
  (i < List.length l)%nat -> exists v, getitem_nat l i = Ok v.
Proof.
  intros Hi. unfold getitem_nat.
  destruct (nth_error l i) as [v|] eqn:Hn.
  - exists v. reflexivity.
  - apply nth_error_None in Hn. lia.
Qed.

(** A lookup answers exactly when the index, negative or not, falls inside
    the list. *)
Lemma py_getitem_in_bounds {A : Type} (l : list A) (i : Z) :
  (exists v, py_getitem l i = Ok v)
  <-> (- Z.of_nat (List.length l) <= i < Z.of_nat (List.length l))%Z.
Proof.
  unfold py_getitem.
  set (n := Z.of_nat (List.length l)).
  destruct (Z.ltb_spec i 0) as [Hneg|Hpos].
  - destruct (Z.ltb_spec (i + n) 0) as [H1|H1]; simpl.
    + split; [intros [v Hv]; discriminate | lia].
    + destruct (Z.leb_spec n (i + n)) as [H2|H2]; [lia|].
      split; [lia|]. intros _. apply getitem_nat_ok. lia.
  - destruct (Z.ltb_spec i 0) as [H1|_]; [lia|]. simpl.
    destruct (Z.leb_spec n i) as [H2|H2].
    + split; [intros [v Hv]; discriminate | lia].
    + split; [lia|]. intros _. apply getitem_nat_ok. lia.
Qed.

Lemma py_getitem_out_of_bounds {A : Type} (l : list A) (i : Z) :
  ~ (- Z.of_nat (List.length l) <= i < Z.of_nat (List.length l))%Z ->
  py_getitem l i = Raise IndexError.
Proof.
  intros H. destruct (py_getitem l i) as [v|e] eqn:Hv.
  - exfalso. apply H. apply py_getitem_in_bounds. exists v. exact Hv.
  - unfold py_getitem, getitem_nat in Hv.
    destruct (_ || _); [congruence|].
    destruct (nth_error _ _); congruence.
Qed.

Lemma eval_length {A : Type} (e : list_expr A) :
  List.length (eval e)
  = (fix total (e : list_expr A) : nat :=
       match e with
       | Rep _ n => Z.to_nat n
       | Cat e1 e2 => (total e1 + total e2)%nat
       end) e.
Proof.
  induction e as [v n|e1 IH1 e2 IH2]; simpl.
  - apply repeat_length.
  - rewrite length_app, IH1, IH2. reflexivity.
Qed.

(** C8, as the code has it.  The three default schedules have 1000
    entries, which is the number of diffusion steps [load_diffusion_model]
    sets for the default [steps = 250]; a lookup at [1000 - (t + 1)]
    answers exactly when that index falls inside the schedule, so with at
    least 1000 entries it answers for every [t] from 0 to 999.  Nothing
    makes a schedule given by the caller that long. *)
Theorem schedule_lookup_in_bounds :
  (List.length (eval default_cut_overview) = 1000
   /\ List.length (eval default_cut_innercut) = 1000
   /\ List.length (eval default_cut_icgray_p) = 1000)%nat
  /\ diffusion_steps 250 = Ok 1000%Z
  /\ (forall (A : Type) (sched : list A) (t : Z),
        (exists v, py_getitem sched (schedule_index t) = Ok v)
        <-> (- Z.of_nat (List.length sched) <= 999 - t
             < Z.of_nat (List.length sched))%Z)
  /\ (forall (A : Type) (sched : list A) (t : Z),
        (1000 <= List.length sched)%nat ->
        (0 <= t <= 999)%Z ->
        exists v, py_getitem sched (schedule_index t) = Ok v).
Proof.
  split; [|split; [|split]].
  - rewrite !eval_length. repeat split.
  - reflexivity.
  - intros A sched t. rewrite py_getitem_in_bounds.
    unfold schedule_index. lia.
  - intros A sched t Hlen Ht. apply py_getitem_in_bounds.
    unfold schedule_index. lia.
Qed.

Lemma schedule_lookup_in_bounds_witness :
  (exists v, py_getitem (eval default_cut_overview) (schedule_index 0) = Ok v)
  /\ (exists v,
         py_getitem (eval default_cut_icgray_p) (schedule_index 999) = Ok v).
Proof.
  split.
  - apply (proj2 (proj2 (proj2 schedule_lookup_in_bounds))).
    + rewrite eval_length. simpl. lia.
    + lia.
  - apply (proj2 (proj2 (proj2 schedule_lookup_in_bounds))).
    + rewrite eval_length. simpl. lia.
    + lia.
Defined.

(** A caller's schedule [[12]*10] under the default 250 steps: ten entries
    against 1000 diffusion steps, and the first lookup of [cond_fn] at
    [t = 0] raises. *)
Lemma short_schedule_raises :
  diffusion_steps 250 = Ok 1000%Z
  /\ List.length (eval (Rep 12%Z 10)) = 10%nat
  /\ py_getitem (eval (Rep 12%Z 10)) (schedule_index 0) = Raise IndexError
  /\ cond_fn half_blend (spiked_clip_grad (Fin 0)) no_aux_grad half_backprop
             (guidance_with (Rep 12%Z 10) default_cut_innercut
                            default_cut_icgray_p (5 / 100))
             [tt] one_pixel 0
     = Raise IndexError.
Proof.
  repeat split.
Qed.

(** ** Real vectors *)

Local Open Scope R_scope.

Lemma zip_with_same (f : R -> R -> R) (a : vec) :
  zip_with f a a = map (fun r => f r r) a.
Proof. induction a as [|r a IH]; simpl; [|rewrite IH]; reflexivity. Qed.

Lemma dot_nonneg (a : vec) : 0 <= dot a a.
Proof.
  unfold dot. induction a as [|r a IH]; simpl; [lra|]. nra.
Qed.

Lemma dot_scale_l (k : R) (a b : vec) :
  dot (map (Rmult k) a) b = k * dot a b.
Proof.
  unfold dot. revert b.
  induction a as [|r a IH]; intros [|s b]; simpl; try lra.
  rewrite IH. lra.
Qed.

Lemma dot_comm (a b : vec) : dot a b = dot b a.
Proof.
  unfold dot. revert b.
  induction a as [|r a IH]; intros [|s b]; simpl; try lra.
  rewrite IH. lra.
Qed.

Lemma dot_scale_both (k : R) (a : vec) :
  dot (map (Rmult k) a) (map (Rmult k) a) = k * k * dot a a.
Proof.
  rewrite dot_scale_l, (dot_comm a), dot_scale_l. lra.
Qed.

Lemma norm_scale (k : R) (a : vec) :
  0 <= k -> norm (map (Rmult k) a) = k * norm a.
Proof.
  intros Hk. unfold norm. rewrite dot_scale_both.
  rewrite sqrt_mult; [|nra|apply dot_nonneg].
  rewrite sqrt_square by exact Hk. reflexivity.
Qed.

Lemma rms_scale (k : R) (a : vec) :
  0 <= k -> rms (map (Rmult k) a) = k * rms a.
Proof.
  intros Hk. unfold rms. rewrite dot_scale_both, length_map.
  replace (k * k * dot a a / INR (List.length a))
    with (k * k * (dot a a / INR (List.length a))) by (unfold Rdiv; ring).
  destruct a as [|r a].
  - simpl. unfold dot. simpl. unfold Rdiv. rewrite !Rmult_0_l, Rmult_0_r.
    rewrite sqrt_0. ring.
  - rewrite sqrt_mult; [|nra|].
    + rewrite sqrt_square by exact Hk. reflexivity.
    + apply Rmult_le_pos; [apply dot_nonneg|].
      apply Rlt_le, Rinv_0_lt_compat, lt_0_INR. simpl. lia.
Qed.

(** ** Tensors of finite entries *)

Lemma fold_left_Rplus (l : list R) (a : R) :
  fold_left Rplus l a = a + fold_right Rplus 0 l.
Proof.
  revert a. induction l as [|r l IH]; intros a; simpl; [lra|].
  rewrite IH. lra.
Qed.

Lemma fold_left_fadd_Fin (l : list R) (a : R) :
  fold_left fadd (map Fin l) (Fin a) = Fin (fold_left Rplus l a).
Proof.
  revert a. induction l as [|r l IH]; intros a; simpl; [reflexivity|].
  apply IH.
Qed.

(** The magnitude [grad.square().mean().sqrt()] of a finite, non-empty
    gradient is its root mean square. *)
Lemma magnitude_finite (grad : tensor) (rs : vec) :
  data grad = map Fin rs ->
  rs <> [] ->
  fsqrt (tmean (tsquare grad)) = Fin (rms rs).
Proof.
  intros Hd Hne. unfold tmean, tsquare, tmap. simpl. rewrite Hd.
  rewrite !length_map, map_map. simpl.
  rewrite <- (map_map (fun r => r * r) Fin), fold_left_fadd_Fin.
  rewrite fold_left_Rplus, Rplus_0_l, <- zip_with_same.
  fold (dot rs rs). unfold fdiv.
  assert (Hn : 0 < INR (List.length rs)).
  { apply lt_0_INR. destruct rs; [contradiction|simpl; lia]. }
  destruct (Req_dec_T (INR (List.length rs)) 0) as [E|_]; [lra|].
  unfold fsqrt, rms.
  destruct (Rlt_dec (dot rs rs / INR (List.length rs)) 0) as [Hlt|_].
  - exfalso. pose proof (dot_nonneg rs) as Hd0.
    assert (0 <= dot rs rs / INR (List.length rs)).
    { apply Rmult_le_pos; [exact Hd0|].
      apply Rlt_le, Rinv_0_lt_compat, Hn. }
    lra.
  - reflexivity.
Qed.

Lemma rms_pos_nonempty (rs : vec) : 0 < rms rs -> rs <> [].
Proof.
  intros H ->. unfold rms, dot in H. simpl in H.
  unfold Rdiv in H. rewrite Rmult_0_l, sqrt_0 in H. lra.
Qed.

Lemma rms_pos_dot (rs : vec) : 0 < rms rs -> 0 < dot rs rs.
Proof.
  intros H. pose proof (dot_nonneg rs) as [Hp|Hz]; [exact Hp|].
  unfold rms in H. rewrite <- Hz in H.
  unfold Rdiv in H. rewrite Rmult_0_l, sqrt_0 in H. lra.
Qed.

(** ** The guidance function *)

Section GuidanceFacts.

Variable model_stat : Type.
Variable blend : tensor -> tensor.
Variable clip_grad : model_stat -> Z -> Z -> Z -> Q -> tensor -> result tensor.
Variable aux_grad : tensor -> tensor.
Variable backprop : tensor -> tensor -> tensor.
Variable args : guidance_args.

Local Abbreviation raw := (raw_gradient blend clip_grad aux_grad args).
Local Abbreviation guide := (cond_fn blend clip_grad aux_grad backprop args).

Lemma zeros_like_zero (x : tensor) :
  shape (zeros_like x) = shape x
  /\ List.length (data (zeros_like x)) = List.length (data x)
  /\ Forall (fun a => a = Fin 0) (data (zeros_like x)).
Proof.
  unfold zeros_like, tmap. simpl. repeat split.
  - apply length_map.
  - apply Forall_forall. intros a Ha. apply in_map_iff in Ha as (b & <- & _).
    reflexivity.
Qed.

(** C1, as the code has it.  When the accumulated gradient holds a NaN,
    [cond_fn] returns the zero tensor of the shape of its input sample,
    unclamped, and does so without raising. *)
Theorem nan_gradient_zeroed (model_stats : list model_stat)
        (x : tensor) (t : Z) (g : tensor) :
  raw model_stats x t = Ok g ->
  tany isnan g = true ->
  guide model_stats x t = Ok (zeros_like x)
  /\ shape (zeros_like x) = shape x
  /\ List.length (data (zeros_like x)) = List.length (data x)
  /\ Forall (fun a => a = Fin 0) (data (zeros_like x)).
Proof.
  intros Hraw Hnan. split; [|apply zeros_like_zero].
  unfold cond_fn. rewrite Hraw. simpl.
  unfold finish. rewrite Hnan. simpl.
  rewrite andb_false_r. reflexivity.
Qed.

Lemma clamp_finite_any (grad : tensor) (rs : vec) :
  data grad = map Fin rs ->
  0 < rms rs ->
  data (clamp args grad)
  = map Fin (map (Rmult (Rmin (rms rs) (clamp_max args) / rms rs)) rs)
  /\ shape (clamp args grad) = shape grad.
Proof.
  intros Hd Hpos. split; [|reflexivity].
  unfold clamp, clamp_by.
  rewrite (@magnitude_finite grad rs Hd (@rms_pos_nonempty rs Hpos)).
  unfold tmap. simpl. rewrite Hd, !map_map.
  apply map_ext. intros r. simpl.
  destruct (Req_dec_T (rms rs) 0) as [E|_]; [lra|].
  f_equal. field. lra.
Qed.

Lemma clamp_finite (grad : tensor) (rs : vec) :
  data grad = map Fin rs ->
  0 < clamp_max args < rms rs ->
  data (clamp args grad)
  = map Fin (map (Rmult (clamp_max args / rms rs)) rs)
  /\ shape (clamp args grad) = shape grad.
Proof.
  intros Hd [Hc HM].
  assert (Hpos : 0 < rms rs) by lra.
  destruct (@clamp_finite_any grad rs Hd Hpos) as [Hdata Hshape].
  split; [|exact Hshape].
  rewrite Hdata, Rmin_right by lra. reflexivity.
Qed.

Lemma clamp_by_overflow (grad : tensor) (rs : vec) :
  data grad = map Fin rs ->
  data (clamp_by args PInf grad) = map (fun _ => Fin 0) rs.
Proof.
  intros Hd. unfold clamp_by, tmap. cbn [data]. rewrite Hd, map_map.
  apply map_ext. intros r. reflexivity.
Qed.

Lemma clamp_by_underflow (grad : tensor) (rs : vec) :
  0 < clamp_max args ->
  data grad = map Fin rs ->
  data (clamp_by args (Fin 0) grad) = map (fun _ => NaN) rs.
Proof.
  intros Hc Hd. unfold clamp_by, tmap. cbn [data]. rewrite Hd, map_map.
  apply map_ext. intros r. cbn [fclamp_max fmul fdiv].
  rewrite Rmin_left by lra. rewrite Rmult_0_r.
  destruct (Req_dec_T 0 0) as [_|N]; [|contradiction].
  destruct (Rlt_dec 0 0) as [H|_]; [exfalso; lra | reflexivity].
Qed.


End GuidanceFacts.

Lemma nan_gradient_zeroed_witness :
  cond_fn half_blend (spiked_clip_grad NaN) no_aux_grad half_backprop
          default_guidance_args [tt] one_pixel 0
  = Ok (zeros_like one_pixel).
Proof.
  apply (@nan_gradient_zeroed unit half_blend (spiked_clip_grad NaN)
           no_aux_grad half_backprop default_guidance_args [tt] one_pixel 0
           {| shape := [1; 1; 1; 1]%nat; data := [NaN] |}).
  - reflexivity.
  - reflexivity.
Defined.

(** A gradient that overflowed to plus infinity holds no NaN: [cond_fn]
    keeps it, and with the default clamping hands a NaN to the sampler. *)
Lemma inf_gradient_not_zeroed :
  raw_gradient half_blend (spiked_clip_grad PInf) no_aux_grad
               default_guidance_args [tt] one_pixel 0
  = Ok {| shape := [1; 1; 1; 1]%nat; data := [PInf] |}
  /\ tany (fun a => negb (isfinite a))
          {| shape := [1; 1; 1; 1]%nat; data := [PInf] |} = true
  /\ cond_fn half_blend (spiked_clip_grad PInf) no_aux_grad half_backprop
             default_guidance_args [tt] one_pixel 0
     = Ok {| shape := [1; 1; 1; 1]%nat; data := [NaN] |}
  /\ cond_fn half_blend (spiked_clip_grad PInf) no_aux_grad half_backprop
             default_guidance_args [tt] one_pixel 0
     <> Ok (zeros_like one_pixel).
Proof.
  assert (H : cond_fn half_blend (spiked_clip_grad PInf) no_aux_grad
                      half_backprop default_guidance_args [tt] one_pixel 0
              = Ok {| shape := [1; 1; 1; 1]%nat; data := [NaN] |}).
  { eval_py. repeat (settle_real; eval_py). reflexivity. }
  repeat split.
  - eval_py. repeat (settle_real; eval_py). reflexivity.
  - exact H.
  - rewrite H. discriminate.
Qed.

Lemma rms_singleton (r : R) : 0 <= r -> rms [r] = r.
Proof.
  intros Hr. unfold rms, dot. simpl.
  replace ((r * r + 0) / 1) with (r * r) by field.
  apply sqrt_square, Hr.
Qed.



(** ** The semantic-distance loss *)

Lemma normalize_eps_pos : 0 < normalize_eps.
Proof. apply Rinv_0_lt_compat, pow_lt. lra. Qed.

Lemma normalize_eps_le_1 : normalize_eps <= 1.
Proof.
  unfold normalize_eps. rewrite <- Rinv_1.
  apply Rinv_le_contravar; [lra|]. apply pow_R1_Rle. lra.
Qed.

Lemma normalize_scale (x : vec) :
  normalize x = map (Rmult (/ Rmax (norm x) normalize_eps)) x.
Proof.
  unfold normalize. apply map_ext. intros a. unfold Rdiv. ring.
Qed.

Lemma normalize_length (x : vec) :
  List.length (normalize x) = List.length x.
Proof. apply length_map. Qed.

Lemma norm_sqr (x : vec) : norm x * norm x = dot x x.
Proof. apply sqrt_sqrt, dot_nonneg. Qed.

Lemma norm_nonneg (x : vec) : 0 <= norm x.
Proof. apply sqrt_pos. Qed.

(** An embedding that is not numerically zero has unit length once
    normalised. *)
Lemma normalize_unit (x : vec) :
  normalize_eps <= norm x -> dot (normalize x) (normalize x) = 1.
Proof.
  intros Hx. pose proof normalize_eps_pos as He.
  rewrite normalize_scale, dot_scale_both, Rmax_left by exact Hx.
  rewrite <- norm_sqr. field. lra.
Qed.

(** In every case its length is at most one. *)
Lemma normalize_short (x : vec) : dot (normalize x) (normalize x) <= 1.
Proof.
  pose proof normalize_eps_pos as He.
  pose proof (Rmax_l (norm x) normalize_eps) as Hl.
  pose proof (Rmax_r (norm x) normalize_eps) as Hr.
  pose proof (norm_nonneg x) as Hn.
  rewrite normalize_scale, dot_scale_both, <- norm_sqr.
  set (m := Rmax (norm x) normalize_eps) in *.
  assert (Hm : 0 < m) by lra.
  replace (/ m * / m * (norm x * norm x)) with ((norm x / m) * (norm x / m))
    by (field; lra).
  assert (H1 : 0 <= norm x / m)
    by (apply Rmult_le_pos; [exact Hn | apply Rlt_le, Rinv_0_lt_compat, Hm]).
  assert (H2 : norm x / m <= 1).
  { apply (Rmult_le_reg_r m); [exact Hm|].
    unfold Rdiv. rewrite Rmult_assoc, Rinv_l by lra. lra. }
  nra.
Qed.

Lemma dot_vsub_self (a : vec) : dot (vsub a a) (vsub a a) = 0.
Proof.
  unfold dot, vsub. induction a as [|r a IH]; simpl; [reflexivity|].
  rewrite IH. ring.
Qed.

Lemma dot_vsub_le (a b : vec) :
  dot (vsub a b) (vsub a b) <= 2 * dot a a + 2 * dot b b.
Proof.
  revert b. induction a as [|r a IH]; intros [|s b].
  - unfold dot, vsub. simpl. lra.
  - pose proof (dot_nonneg (s :: b)). unfold dot, vsub in *. simpl in *. lra.
  - pose proof (dot_nonneg (r :: a)). unfold dot, vsub in *. simpl in *.
    clear IH. nra.
  - specialize (IH b). unfold dot, vsub in *. simpl.
    pose proof (Rle_0_sqr (r + s)) as Hsq. unfold Rsqr in Hsq. lra.
Qed.

Lemma dot_vsub (a b : vec) :
  List.length a = List.length b ->
  dot (vsub a b) (vsub a b) = dot a a + dot b b - 2 * dot a b.
Proof.
  revert b. induction a as [|r a IH]; intros [|s b] Hlen;
    try discriminate.
  - unfold dot, vsub. simpl. ring.
  - injection Hlen as Hlen. specialize (IH b Hlen).
    unfold dot, vsub in *. simpl. rewrite IH. ring.
Qed.

Lemma dot_vadd_nonneg (a b : vec) :
  List.length a = List.length b ->
  0 <= dot a a + dot b b + 2 * dot a b.
Proof.
  revert b. induction a as [|r a IH]; intros [|s b] Hlen;
    try discriminate.
  - unfold dot. simpl. lra.
  - injection Hlen as Hlen. specialize (IH b Hlen).
    unfold dot in *. simpl.
    pose proof (Rle_0_sqr (r + s)) as Hsq. unfold Rsqr in Hsq. lra.
Qed.

(** The argument handed to [arcsin] lies between 0 and 1. *)
Lemma asin_argument_in_domain (x y : vec) :
  0 <= norm (vsub (normalize x) (normalize y)) / 2 <= 1.
Proof.
  pose proof (norm_nonneg (vsub (normalize x) (normalize y))) as H0.
  split; [lra|].
  assert (H4 : dot (vsub (normalize x) (normalize y))
                   (vsub (normalize x) (normalize y)) <= 2 * 2).
  { pose proof (dot_vsub_le (normalize x) (normalize y)).
    pose proof (normalize_short x). pose proof (normalize_short y). lra. }
  apply sqrt_le_1_alt in H4. fold (norm (vsub (normalize x) (normalize y))) in H4.
  rewrite sqrt_square in H4 by lra. lra.
Qed.

(** For embeddings of one length that are not numerically zero, the loss
    is half the square of the angle between them. *)
Lemma loss_of_angle (x y : vec) :
  List.length x = List.length y ->
  normalize_eps <= norm x ->
  normalize_eps <= norm y ->
  spherical_dist_loss x y = (angle x y) ^ 2 / 2.
Proof.
  intros Hlen Hx Hy. unfold spherical_dist_loss, angle.
  set (u := normalize x). set (v := normalize y).
  assert (Huv : List.length u = List.length v)
    by (unfold u, v; rewrite !normalize_length; exact Hlen).
  pose proof (normalize_unit x Hx) as Hu. fold u in Hu.
  pose proof (normalize_unit y Hy) as Hv. fold v in Hv.
  pose proof (dot_vsub u v Huv) as Hd.
  pose proof (dot_nonneg (vsub u v)) as Hd0.
  pose proof (dot_vadd_nonneg u v Huv) as Hs0.
  set (c := dot u v) in *.
  assert (Hc : -1 <= c <= 1) by lra.
  pose proof (acos_bound c) as Hth.
  pose proof (cos_acos c Hc) as Hcos.
  set (th := acos c) in *.
  assert (Hsin : 0 <= sin (th / 2)) by (apply sin_ge_0; lra).
  assert (Hnorm : norm (vsub u v) = 2 * sin (th / 2)).
  { unfold norm. apply sqrt_lem_1; [exact Hd0 | lra |].
    assert (Hhalf : cos th = 1 - 2 * sin (th / 2) * sin (th / 2)).
    { rewrite <- cos_2a_sin. f_equal. field. }
    rewrite Hd, Hu, Hv, <- Hcos, Hhalf. ring. }
  rewrite Hnorm.
  replace (2 * sin (th / 2) / 2) with (sin (th / 2)) by field.
  rewrite asin_sin by lra. field.
Qed.

Lemma norm_singleton (r : R) : norm [r] = Rabs r.
Proof.
  unfold norm, dot. simpl. rewrite Rplus_0_r.
  fold (Rsqr r). apply sqrt_Rsqr_abs.
Qed.

Lemma normalize_unit_singleton (r : R) :
  Rabs r = 1 -> normalize [r] = [r].
Proof.
  intros Hr. unfold normalize. simpl. rewrite norm_singleton, Hr.
  rewrite Rmax_left by apply normalize_eps_le_1.
  f_equal. field.
Qed.

Lemma Rabs_minus_1 : Rabs (-1) = 1.
Proof. unfold Rabs. destruct (Rcase_abs (-1)); lra. Qed.

Lemma angle_same : angle [1] [1] = 0.
Proof.
  unfold angle.
  rewrite normalize_unit_singleton by (rewrite Rabs_R1; reflexivity).
  unfold dot. simpl.
  replace (1 * 1 + 0) with 1 by ring. apply acos_1.
Qed.

Lemma angle_antipodal : angle [1] [-1] = PI.
Proof.
  unfold angle.
  rewrite (normalize_unit_singleton 1 Rabs_R1).
  rewrite (normalize_unit_singleton (-1) Rabs_minus_1).
  unfold dot. simpl.
  replace (1 * -1 + 0) with (Ropp 1) by ring.
  rewrite acos_opp, acos_1. ring.
Qed.

Lemma unit_singleton_norm (r : R) : Rabs r = 1 -> normalize_eps <= norm [r].
Proof.
  intros Hr. rewrite norm_singleton, Hr. apply normalize_eps_le_1.
Qed.

Lemma antipodal_loss : spherical_dist_loss [1] [-1] = PI ^ 2 / 2.
Proof.
  rewrite loss_of_angle.
  - rewrite angle_antipodal. reflexivity.
  - reflexivity.
  - apply unit_singleton_norm, Rabs_R1.
  - apply unit_singleton_norm, Rabs_minus_1.
Qed.

Lemma arcsin_pow_mul_in_domain (h : R) :
  -1 <= h <= 1 -> arcsin_pow_mul (Fin h) = Fin (asin h ^ 2 * 2).
Proof.
  intros [Hlo Hhi]. unfold arcsin_pow_mul, farcsin.
  destruct (Rle_dec (-1) h) as [_|N]; [|contradiction].
  destruct (Rle_dec h 1) as [_|N]; [|contradiction].
  simpl. f_equal. ring.
Qed.

(** C3, as the code has it, in exact arithmetic.  The loss is 0 when the
    two embeddings agree after normalisation; between embeddings that are
    not numerically zero it grows strictly with their angle; and it lies
    between 0 and [PI^2 / 2], a bound that two opposite embeddings reach.
    What is handed to [arcsin] lies between 0 and 1 when nothing is
    rounded.  Whatever the half chord that was computed, the last three
    steps answer NaN when it is above 1, as rounding can make it for
    opposite embeddings, and a number between 0 and [PI^2 / 2] when it is
    not. *)
Theorem spherical_dist_loss_properties :
  (forall x y,
      normalize x = normalize y -> spherical_dist_loss x y = 0)
  /\ (forall x y x' y',
        List.length x = List.length y ->
        List.length x' = List.length y' ->
        normalize_eps <= norm x -> normalize_eps <= norm y ->
        normalize_eps <= norm x' -> normalize_eps <= norm y' ->
        angle x y < angle x' y' ->
        spherical_dist_loss x y < spherical_dist_loss x' y')
  /\ (forall x y, 0 <= spherical_dist_loss x y <= PI ^ 2 / 2)
  /\ spherical_dist_loss [1] [-1] = PI ^ 2 / 2
  /\ (forall x y, 0 <= norm (vsub (normalize x) (normalize y)) / 2 <= 1)
  /\ (forall x y,
        arcsin_pow_mul (Fin (norm (vsub (normalize x) (normalize y)) / 2))
        = Fin (spherical_dist_loss x y))
  /\ (forall h, 1 < h -> arcsin_pow_mul (Fin h) = NaN)
  /\ (forall h, -1 <= h <= 1 ->
        exists v, arcsin_pow_mul (Fin h) = Fin v /\ 0 <= v <= PI ^ 2 / 2).
Proof.
  split; [|split; [|split; [|split; [|split; [|split; [|split]]]]]].
  - intros x y E. unfold spherical_dist_loss. rewrite E.
    unfold norm. rewrite dot_vsub_self, sqrt_0.
    replace (0 / 2) with 0 by field. rewrite asin_0. ring.
  - intros x y x' y' Hl Hl' Hx Hy Hx' Hy' Hlt.
    rewrite !loss_of_angle by assumption.
    pose proof (acos_bound (dot (normalize x) (normalize y))) as H0.
    fold (angle x y) in H0. nra.
  - intros x y. unfold spherical_dist_loss.
    pose proof (asin_bound (norm (vsub (normalize x) (normalize y)) / 2)) as Hb.
    pose proof PI_RGT_0. nra.
  - exact antipodal_loss.
  - exact asin_argument_in_domain.
  - intros x y. pose proof (asin_argument_in_domain x y) as Hd.
    rewrite arcsin_pow_mul_in_domain by lra. reflexivity.
  - intros h Hh. unfold arcsin_pow_mul, farcsin.
    destruct (Rle_dec (-1) h) as [_|_]; [|reflexivity].
    destruct (Rle_dec h 1) as [Hle|_]; [exfalso; lra | reflexivity].
  - intros h Hh. rewrite (arcsin_pow_mul_in_domain Hh).
    eexists. split; [reflexivity|].
    pose proof (asin_bound h) as Hb. pose proof PI_RGT_0. nra.
Qed.

Lemma spherical_dist_loss_properties_witness :
  spherical_dist_loss [1] [1] < spherical_dist_loss [1] [-1]
  /\ arcsin_pow_mul (Fin (1 + / 8388608)) = NaN
  /\ exists v, arcsin_pow_mul (Fin 1) = Fin v /\ 0 <= v <= PI ^ 2 / 2.
Proof.
  destruct spherical_dist_loss_properties
    as (_ & Hmono & _ & _ & _ & _ & Hnan & Hfin).
  split; [|split].
  - apply Hmono.
    + reflexivity.
    + reflexivity.
    + apply unit_singleton_norm, Rabs_R1.
    + apply unit_singleton_norm, Rabs_R1.
    + apply unit_singleton_norm, Rabs_R1.
    + apply unit_singleton_norm, Rabs_minus_1.
    + rewrite angle_same, angle_antipodal. apply PI_RGT_0.
  - apply Hnan.
    assert (0 < / 8388608) by (apply Rinv_0_lt_compat; lra). lra.
  - apply Hfin. lra.
Defined.

(** Two opposite embeddings: the loss is [PI^2 / 2], above 4. *)
Lemma opposite_embeddings_exceed_two :
  ~ (0 <= spherical_dist_loss [1] [-1] <= 2).
Proof.
  rewrite antipodal_loss. intros [_ H].
  pose proof PI2_3_2. nra.
Qed.

(** ** Cutouts *)

Local Open Scope Z_scope.

Lemma for_each_length {A B : Type} (f : A -> result B) (l : list A) bs :
  for_each f l = Ok bs -> List.length bs = List.length l.
Proof.
  revert bs. induction l as [|a l IH]; simpl; intros bs H.
  - injection H as <-. reflexivity.
  - destruct (f a) as [b|e]; simpl in H; [|discriminate].
    destruct (for_each f l) as [bs'|e]; simpl in H; [|discriminate].
    injection H as <-. simpl. f_equal. apply IH. reflexivity.
Qed.

Lemma for_each_Forall {A B : Type} (P : B -> Prop) (f : A -> result B)
      (l : list A) bs :
  (forall a b, f a = Ok b -> P b) ->
  for_each f l = Ok bs -> Forall P bs.
Proof.
  intros Hf. revert bs. induction l as [|a l IH]; simpl; intros bs H.
  - injection H as <-. constructor.
  - destruct (f a) as [b|e] eqn:Hb; simpl in H; [|discriminate].
    destruct (for_each f l) as [bs'|e]; simpl in H; [|discriminate].
    injection H as <-. constructor; [exact (Hf a b Hb) | apply IH; reflexivity].
Qed.

Lemma range_length (n : Z) : List.length (range n) = Z.to_nat n.
Proof. unfold range. rewrite length_map, length_seq. reflexivity. Qed.

Lemma torch_cat_ok {A : Type} (l l' : list A) :
  torch_cat l = Ok l' -> l' = l.
Proof. destruct l; simpl; intros H; [discriminate | congruence]. Qed.

Lemma MakeCutouts_step_shape self rnd padded ch c :
  MakeCutouts_step self rnd padded ch = Ok c ->
  dim2 (out_shape c) = mc_cut_size self
  /\ dim3 (out_shape c) = mc_cut_size self.
Proof.
  unfold MakeCutouts_step. intros H.
  destruct (_ : result region) as [reg|e]; simpl in H; [|discriminate].
  injection H as <-. simpl. split; reflexivity.
Qed.

(** The random-crop generator returns as many cutouts as asked for, each
    of the target size, whatever its own [skip_augs] says. *)
Lemma MakeCutouts_forward_count self rnd input cutouts :
  MakeCutouts_forward self rnd input = Ok cutouts ->
  List.length cutouts = Z.to_nat (mc_cutn self)
  /\ Forall (fun c => dim2 (out_shape c) = mc_cut_size self
                      /\ dim3 (out_shape c) = mc_cut_size self) cutouts.
Proof.
  unfold MakeCutouts_forward. intros H.
  destruct (for_each _ _) as [cs|e] eqn:Hcs; simpl in H; [|discriminate].
  apply torch_cat_ok in H. subst cutouts. split.
  - rewrite (for_each_length _ _ Hcs). apply range_length.
  - eapply for_each_Forall; [|exact Hcs].
    intros ch c Hc. exact (MakeCutouts_step_shape _ _ _ _ Hc).
Qed.

(** Which passes of the loop take the whole image. *)
Lemma MakeCutouts_step_whole self rnd padded ch c :
  MakeCutouts_step self rnd padded ch = Ok c ->
  taken_from c = Whole <-> mc_cutn self - mc_cutn self / 4 < ch.
Proof.
  unfold MakeCutouts_step. intros H.
  destruct (Z.gtb_spec ch (mc_cutn self - mc_cutn self / 4)) as [Hgt|Hle].
  - simpl in H. injection H as <-. simpl. split; [lia | reflexivity].
  - destruct (Z.min _ _ =? 0); simpl in H; [discriminate|].
    destruct (randint _ _) as [ox|e]; simpl in H; [|discriminate].
    destruct (randint _ _) as [oy|e]; simpl in H; [|discriminate].
    injection H as <-. simpl. split; [discriminate | lia].
Qed.

Lemma overview_cutouts_length self :
  List.length (overview_cutouts self) = Z.to_nat (Overview self).
Proof.
  unfold overview_cutouts.
  destruct (Z.gtb_spec (Overview self) 0) as [Hpos|Hneg].
  - destruct (Z.leb_spec (Overview self) 4) as [H4|H4].
    + assert (Hcase : Overview self = 1 \/ Overview self = 2
                      \/ Overview self = 3 \/ Overview self = 4) by lia.
      destruct Hcase as [-> | [-> | [-> | ->]]]; reflexivity.
    + rewrite length_map. apply range_length.
  - simpl. destruct (Overview self); try reflexivity. lia.
Qed.

(** With augmentation on, the scheduled generator returns
    [Overview + InnerCrop] cutouts of the target size. *)
Lemma MakeCutoutsDango_forward_count self rnd input cutouts :
  MakeCutoutsDango_forward false self rnd input = Ok (Some cutouts) ->
  List.length cutouts
  = (Z.to_nat (Overview self) + Z.to_nat (InnerCrop self))%nat.
Proof.
  unfold MakeCutoutsDango_forward. intros H.
  destruct (_ : result (list cutout)) as [inner|e] eqn:Hin in H;
    simpl in H; [|discriminate].
  destruct (torch_cat _) as [cs|e] eqn:Hcat; simpl in H; [|discriminate].
  apply torch_cat_ok in Hcat. injection H as <-. subst cs.
  rewrite length_map, length_app, overview_cutouts_length. f_equal.
  destruct (Z.gtb_spec (InnerCrop self) 0) as [Hpos|Hneg].
  - rewrite (for_each_length _ _ Hin). apply range_length.
  - injection Hin as <-. simpl. destruct (InnerCrop self); try reflexivity. lia.
Qed.

Lemma for_each_filter {A B : Type} (f : A -> result B) (p : A -> bool)
      (q : B -> bool) (l : list A) bs :
  (forall a b, f a = Ok b -> q b = p a) ->
  for_each f l = Ok bs ->
  List.length (filter q bs) = List.length (filter p l).
Proof.
  intros Hf. revert bs. induction l as [|a l IH]; simpl; intros bs H.
  - injection H as <-. reflexivity.
  - destruct (f a) as [b|e] eqn:Hb; simpl in H; [|discriminate].
    destruct (for_each f l) as [bs'|e]; simpl in H; [|discriminate].
    injection H as <-. simpl. rewrite (Hf a b Hb).
    destruct (p a); simpl; rewrite (IH bs' eq_refl); reflexivity.
Qed.

Lemma count_above (thr : Z) (k : nat) :
  forall a : nat,
    List.length (filter (fun i => thr <? i) (map Z.of_nat (seq a k)))
    = Z.to_nat (Z.min (Z.of_nat k) (Z.of_nat a + Z.of_nat k - 1 - thr)).
Proof.
  induction k as [|k IH]; intros a; simpl.
  - lia.
  - destruct (Z.ltb_spec thr (Z.of_nat a)); simpl; rewrite IH; lia.
Qed.

Lemma crop_size_bounds (cs ms : Z) (g : Q) :
  0 < cs <= ms ->
  cs <= int (inject_Z ms * clip g (inject_Z cs / inject_Z ms) 1)%Q <= ms.
Proof.
  intros [Hcs Hms].
  set (lo := (inject_Z cs / inject_Z ms)%Q).
  assert (Hms0 : (0 < inject_Z ms)%Q) by (unfold Qlt; simpl; lia).
  assert (Hlo1 : (lo <= 1)%Q).
  { unfold lo. apply Qle_shift_div_r; [exact Hms0|].
    rewrite Qmult_1_l, <- Zle_Qle. exact Hms. }
  assert (Hv : (lo <= clip g lo 1 <= 1)%Q).
  { unfold clip. split.
    - apply Q.min_glb; [apply Q.le_max_r | exact Hlo1].
    - apply Q.le_min_r. }
  set (v := clip g lo 1) in *.
  assert (Hlow : (inject_Z cs <= inject_Z ms * v)%Q).
  { setoid_replace (inject_Z cs) with (inject_Z ms * lo)%Q.
    - apply Qmult_le_l; [exact Hms0 | apply Hv].
    - unfold lo. rewrite Qmult_div_r; [reflexivity|].
      intros E. rewrite E in Hms0. discriminate. }
  assert (Hup : (inject_Z ms * v <= inject_Z ms)%Q).
  { setoid_replace (inject_Z ms) with (inject_Z ms * 1)%Q at 2 by ring.
    apply Qmult_le_l; [exact Hms0 | apply Hv]. }
  unfold int. destruct (Qlt_le_dec _ 0) as [Hneg|_].
  - exfalso. assert (0 < inject_Z cs)%Q by (unfold Qlt; simpl; lia).
    apply (Qlt_irrefl 0). eapply Qlt_le_trans; [exact H|].
    eapply Qle_trans; [exact Hlow|]. apply Qlt_le_weak, Hneg.
  - split.
    + rewrite <- (Qfloor_Z cs). apply Qfloor_resp_le, Hlow.
    + rewrite <- (Qfloor_Z ms) at 2. apply Qfloor_resp_le, Hup.
Qed.

(** How many cutouts of the random-crop generator are the whole image. *)
Lemma MakeCutouts_forward_whole_count self rnd input cutouts :
  MakeCutouts_forward self rnd input = Ok cutouts ->
  count_whole cutouts = Z.to_nat (mc_cutn self / 4 - 1).
Proof.
  unfold MakeCutouts_forward, count_whole. intros H.
  destruct (for_each _ _) as [cs|e] eqn:Hcs; simpl in H; [|discriminate].
  assert (Hne : cs <> []) by (intros ->; discriminate).
  apply torch_cat_ok in H. subst cutouts.
  assert (Hn : (0 < List.length cs)%nat)
    by (destruct cs; [contradiction | simpl; lia]).
  rewrite (for_each_length _ _ Hcs), range_length in Hn.
  assert (HF : forall ch c,
             MakeCutouts_step self rnd
               {| dim0 := dim0 input; dim1 := dim1 input;
                  dim2 := dim2 input + 2 * (dim2 input / 4);
                  dim3 := dim3 input + 2 * (dim2 input / 4) |} ch = Ok c ->
             match taken_from c with Whole => true | _ => false end
             = (mc_cutn self - mc_cutn self / 4 <? ch)).
  { intros ch c Hc.
    pose proof (MakeCutouts_step_whole _ _ _ _ Hc) as Hw.
    destruct (Z.ltb_spec (mc_cutn self - mc_cutn self / 4) ch) as [Hlt|Hge].
    - rewrite (proj2 Hw Hlt). reflexivity.
    - destruct (taken_from c); [|reflexivity].
      exfalso. pose proof (proj1 Hw eq_refl). lia. }
  pose proof (@for_each_filter _ _ _ _ _ _ _ HF Hcs) as Hcount.
  simpl in Hcount. rewrite Hcount.
  unfold range. rewrite count_above.
  pose proof (Z_div_mod_eq_full (mc_cutn self) 4).
  pose proof (Z.mod_pos_bound (mc_cutn self) 4). lia.
Qed.

(** The side of a window lies between the target size and the smaller
    side of the padded image. *)
Lemma MakeCutouts_step_crop_size self rnd padded ch c oy ox size :
  MakeCutouts_step self rnd padded ch = Ok c ->
  taken_from c = Window oy ox size ->
  0 < mc_cut_size self <= Z.min (dim3 padded) (dim2 padded) ->
  mc_cut_size self <= size <= Z.min (dim3 padded) (dim2 padded).
Proof.
  unfold MakeCutouts_step. intros H Hw Hcs.
  destruct (ch >? _); simpl in H.
  - injection H as <-. discriminate.
  - destruct (Z.eqb_spec (Z.min (dim3 padded) (dim2 padded)) 0) as [E|_];
      simpl in H; [discriminate|].
    destruct (randint _ _) as [x|e]; simpl in H; [|discriminate].
    destruct (randint _ _) as [y|e]; simpl in H; [|discriminate].
    injection H as <-. simpl in Hw. injection Hw as _ _ <-.
    apply crop_size_bounds. exact Hcs.
Qed.

(** C2.  Under the module flag [skip_augs = True] the scheduled generator
    never returns a batch: its [return] sits inside the branch that
    augments, so the call answers [None] (or raises), as for four
    overviews of a 512 by 512 image.  The random-crop generator returns its
    [cutn] cutouts with or without augmentation. *)
Theorem dango_skip_augs_returns_none :
  (forall self rnd input cutouts,
      MakeCutoutsDango_forward true self rnd input <> Ok (Some cutouts))
  /\ MakeCutoutsDango_forward true
       {| cut_size := 224; Overview := 4; InnerCrop := 0;
          IC_Size_Pow := 1; IC_Grey_P := (2 # 10)%Q |}
       fixed_draws image_512
     = Ok None
  /\ (exists cutouts,
         MakeCutoutsDango_forward false
           {| cut_size := 224; Overview := 4; InnerCrop := 0;
              IC_Size_Pow := 1; IC_Grey_P := (2 # 10)%Q |}
           fixed_draws image_512
         = Ok (Some cutouts)
         /\ List.length cutouts = 4%nat)
  /\ (exists cutouts,
         MakeCutouts_forward
           {| mc_cut_size := 224; mc_cutn := 16; mc_skip_augs := true |}
           fixed_draws image_512
         = Ok cutouts
         /\ List.length cutouts = 16%nat).
Proof.
  split; [|split; [|split]].
  - intros self rnd input cutouts. unfold MakeCutoutsDango_forward.
    destruct (_ : result (list cutout)) as [inner|e]; simpl; [|discriminate].
    destruct (torch_cat _) as [cs|e]; simpl; discriminate.
  - vm_compute. reflexivity.
  - eexists. split; [vm_compute; reflexivity | reflexivity].
  - eexists. split; [vm_compute; reflexivity | reflexivity].
Qed.

(** C7.  The test [ch > cutn - cutn // 4] lets through one pass fewer
    than a quarter: of 16 cutouts the last 3 are the whole image, and of 4
    none is; pass [cutn - cutn // 4], the first of the final quarter, is a
    crop; in general [cutn // 4 - 1] cutouts are the whole image. *)
Theorem final_quarter_one_short :
  (exists cutouts,
      MakeCutouts_forward
        {| mc_cut_size := 224; mc_cutn := 16; mc_skip_augs := false |}
        fixed_draws image_512
      = Ok cutouts
      /\ count_whole cutouts = 3%nat
      /\ map taken_from (skipn 12 cutouts)
         = [Window 3 7 614; Whole; Whole; Whole])
  /\ (exists cutouts,
         MakeCutouts_forward
           {| mc_cut_size := 224; mc_cutn := 4; mc_skip_augs := false |}
           fixed_draws image_512
         = Ok cutouts
         /\ count_whole cutouts = 0%nat)
  /\ (forall self rnd padded c,
         MakeCutouts_step self rnd padded (mc_cutn self - mc_cutn self / 4)
         = Ok c ->
         taken_from c <> Whole)
  /\ (forall self rnd input cutouts,
         MakeCutouts_forward self rnd input = Ok cutouts ->
         count_whole cutouts = Z.to_nat (mc_cutn self / 4 - 1)).
Proof.
  split; [|split; [|split]].
  - eexists. split; [vm_compute; reflexivity|]. split; reflexivity.
  - eexists. split; [vm_compute; reflexivity|]. reflexivity.
  - intros self rnd padded c H E.
    apply (MakeCutouts_step_whole _ _ _ _ H) in E. lia.
  - exact MakeCutouts_forward_whole_count.
Qed.

(* ================================================================== *)
(** * Part III: the rest of the file                                   *)
(* ================================================================== *)

(** ** Sizes and step counts *)

Local Open Scope Z_scope.

(** The sides of the generated image are the requested ones rounded down
    to a multiple of 64; a request below 64 pixels gives an empty side. *)
Theorem round_side_multiple (requested : Z) :
  (64 | round_side requested)
  /\ requested - 64 < round_side requested <= requested
  /\ (round_side requested = 0 <-> 0 <= requested < 64).
Proof.
  unfold round_side.
  pose proof (Z_div_mod_eq_full requested 64) as Hd.
  pose proof (Z.mod_pos_bound requested 64 ltac:(lia)) as Hm.
  split; [exists (requested / 64); reflexivity|]. split; lia.
Qed.

(** [load_diffusion_model] asks for a number of diffusion steps that the
    requested step count divides: below 1000 it is the largest multiple of
    [steps] not above 1000, from 1000 on it is [steps] itself, and a step
    count of 0 raises. *)
Theorem diffusion_steps_multiple (steps : Z) :
  (0 < steps < 1000 ->
   exists d, diffusion_steps steps = Ok d
             /\ (steps | d) /\ 1000 - steps < d <= 1000)
  /\ (1000 <= steps -> diffusion_steps steps = Ok steps)
  /\ (steps = 0 -> diffusion_steps steps = Raise ZeroDivisionError).
Proof.
  unfold diffusion_steps. split; [|split].
  - intros Hs.
    destruct (Z.ltb_spec steps 1000) as [_|H]; [|lia].
    destruct (Z.eqb_spec steps 0) as [H|_]; [lia|].
    exists (1000 / steps * steps). split; [reflexivity|].
    pose proof (Z_div_mod_eq_full 1000 steps) as Hd.
    pose proof (Z.mod_pos_bound 1000 steps ltac:(lia)) as Hm.
    split; [exists (1000 / steps); reflexivity | lia].
  - intros Hs. destruct (Z.ltb_spec steps 1000) as [H|_]; [lia|]. reflexivity.
  - intros ->. reflexivity.
Qed.

Lemma diffusion_steps_multiple_witness :
  (exists d, diffusion_steps 300 = Ok d
             /\ (300 | d) /\ 1000 - 300 < d <= 1000)
  /\ diffusion_steps 1500 = Ok 1500
  /\ diffusion_steps 0 = Raise ZeroDivisionError.
Proof.
  split; [|split].
  - apply (proj1 (diffusion_steps_multiple 300)). lia.
  - apply (proj1 (proj2 (diffusion_steps_multiple 1500))). lia.
  - apply (proj2 (proj2 (diffusion_steps_multiple 0))). reflexivity.
Defined.

(** ** More on prompts *)

(** A prompt with no colon is taken whole with the weight 1, and so is a
    URL whose only colon is that of its scheme. *)
Theorem parse_prompt_without_weight :
  (forall prompt,
      occurs colon prompt = false -> parse_prompt prompt = Ok (prompt, 1%Q))
  /\ (forall scheme rest,
         startswith (lit "http://") (scheme ++ colon :: rest) = true
         \/ startswith (lit "https://") (scheme ++ colon :: rest) = true ->
         occurs colon scheme = false ->
         occurs colon rest = false ->
         parse_prompt (scheme ++ colon :: rest)
         = Ok (scheme ++ colon :: rest, 1%Q)).
Proof.
  split.
  - intros prompt Hno. unfold parse_prompt.
    assert (Hany : forall p, occurs colon p = true ->
                             startswith p prompt = false).
    { intros p Hp. destruct (startswith p prompt) eqn:E; [|reflexivity].
      rewrite (startswith_occurs colon _ _ E Hp) in Hno. discriminate. }
    pose proof (Hany (lit "http://") eq_refl) as H1.
    pose proof (Hany (lit "https://") eq_refl) as H2.
    rewrite H1, H2. simpl. rewrite (cut_last_absent _ _ Hno). reflexivity.
  - intros scheme rest Hurl Hs Hr. unfold parse_prompt.
    replace (startswith (lit "http://") (scheme ++ colon :: rest)
             || startswith (lit "https://") (scheme ++ colon :: rest))
      with true
      by (destruct Hurl as [-> | ->]; [|rewrite orb_true_r]; reflexivity).
    rewrite (rsplit_once _ 1 _ _ Hr). simpl.
    rewrite (cut_last_absent _ _ Hs). reflexivity.
Qed.

Lemma parse_prompt_without_weight_witness :
  parse_prompt (lit "a lighthouse") = Ok (lit "a lighthouse", 1%Q)
  /\ parse_prompt (lit "https" ++ colon :: lit "//x.com/a.png")
     = Ok (lit "https" ++ colon :: lit "//x.com/a.png", 1%Q).
Proof.
  split.
  - apply (proj1 parse_prompt_without_weight). reflexivity.
  - apply (proj2 parse_prompt_without_weight).
    + right. reflexivity.
    + reflexivity.
    + reflexivity.
Defined.

(** In a prompt that is not a URL the weight is what follows the last
    colon, and the text is all that precedes it, earlier colons included. *)
Theorem parse_prompt_last_colon (pre w : str) :
  startswith (lit "http://") (pre ++ colon :: w) = false ->
  startswith (lit "https://") (pre ++ colon :: w) = false ->
  occurs colon w = false ->
  parse_prompt (pre ++ colon :: w) = (q <- float w ;; Ok (pre, q))%py.
Proof. apply parse_prompt_plain. Qed.

Lemma parse_prompt_last_colon_witness :
  parse_prompt (lit "ratio 16:9, night" ++ colon :: lit "2")
  = Ok (lit "ratio 16:9, night", 2%Q).
Proof.
  rewrite (parse_prompt_last_colon (lit "ratio 16:9, night") (lit "2"));
    reflexivity.
Defined.

(** ** The cache of CLIP models *)

Section ClipCacheFacts.

Variable clip : Type.
Variable clip_load : str -> result clip.

Local Abbreviation dict := (pydict clip).

Lemma str_eqb_eq (a b : str) : str_eqb a b = true <-> a = b.
Proof.
  unfold str_eqb. destruct (list_eq_dec ascii_dec a b); split; congruence.
Qed.

Lemma list_contains_In (k : str) (names : list str) :
  list_contains k names = true <-> In k names.
Proof.
  unfold list_contains. rewrite existsb_exists. split.
  - intros (x & Hx & E). apply str_eqb_eq in E. subst x. exact Hx.
  - intros H. exists k. split; [exact H | apply str_eqb_eq; reflexivity].
Qed.

Lemma dict_contains_In (k : str) (d : dict) :
  dict_contains k d = true <-> In k (map fst d).
Proof.
  unfold dict_contains. rewrite existsb_exists, in_map_iff. split.
  - intros (kv & Hkv & E). apply str_eqb_eq in E. exists kv. auto.
  - intros (kv & E & Hkv). exists kv. split; [exact Hkv|].
    apply str_eqb_eq. auto.
Qed.

Lemma dict_pop_length (k : str) (d : dict) :
  In k (map fst d) -> S (List.length (dict_pop k d)) = List.length d.
Proof.
  induction d as [|kv d IH]; simpl; intros H; [contradiction|].
  destruct (str_eqb k (fst kv)) eqn:E; [reflexivity|].
  simpl. f_equal. apply IH. destruct H as [H|H]; [|exact H].
  exfalso. subst k.
  assert (str_eqb (fst kv) (fst kv) = true) by (apply str_eqb_eq; reflexivity).
  congruence.
Qed.

(** What the first loop does to the cache when every load succeeds: the
    bindings it had stay in place, and the enabled names that were missing
    are added after them, once each. *)
Lemma load_enabled_ok (enabled : list str) :
  forall d : dict,
    (forall k, In k enabled -> exists m, clip_load k = Ok m) ->
    exists fresh,
      load_enabled clip_load enabled d = (Ok tt, d ++ fresh)
      /\ (forall k, In k (map fst fresh) -> In k enabled)
      /\ (forall k, In k enabled -> In k (map fst (d ++ fresh)))
      /\ (forall k m, In (k, m) fresh ->
                      clip_load k = Ok m /\ ~ In k (map fst d))
      /\ NoDup (map fst fresh).
Proof.
  induction enabled as [|k ks IH]; intros d Hload; simpl.
  - exists []. rewrite app_nil_r.
    repeat split; simpl; try contradiction; try constructor.
  - assert (Hks : forall k', In k' ks -> exists m, clip_load k' = Ok m)
      by (intros k' Hk'; apply Hload; right; exact Hk').
    destruct (dict_contains k d) eqn:Hk; simpl.
    + destruct (IH d Hks) as (fresh & Hrun & Hsub & Hall & Hnew & Hnd).
      exists fresh. repeat split; auto.
      * intros k' [<- | Hk'].
        -- rewrite map_app, in_app_iff. left. apply dict_contains_In, Hk.
        -- apply Hall, Hk'.
      * apply (Hnew _ _ H).
      * apply (Hnew _ _ H).
    + destruct (Hload k (or_introl eq_refl)) as [m Hm]. rewrite Hm.
      destruct (IH (d ++ [(k, m)]) Hks)
        as (fresh & Hrun & Hsub & Hall & Hnew & Hnd).
      assert (Hk_d : ~ In k (map fst d)).
      { intros Hin. apply dict_contains_In in Hin. congruence. }
      exists ((k, m) :: fresh). rewrite <- app_assoc in Hrun.
      split; [exact Hrun|]. split; [|split; [|split]].
      * simpl. intros k' [<- | Hk']; [left; reflexivity | right; auto].
      * intros k' Hk'. rewrite <- app_assoc in Hall.
        destruct Hk' as [<- | Hk'].
        -- rewrite map_app, in_app_iff. right. left. reflexivity.
        -- apply Hall, Hk'.
      * intros k' m' [E | Hin].
        -- injection E as <- <-. split; assumption.
        -- destruct (Hnew _ _ Hin) as [Hl Hn]. split; [exact Hl|].
           intros Hd. apply Hn. rewrite map_app, in_app_iff. left. exact Hd.
      * simpl. constructor; [|exact Hnd].
        intros Hin. apply in_map_iff in Hin as ([k' m'] & E & Hin).
        simpl in E. subst k'. destruct (Hnew _ _ Hin) as [_ Hn].
        apply Hn. rewrite map_app, in_app_iff. right. left. reflexivity.
Qed.

Lemma disable_others_changed (enabled keys : list str) (used : nat)
      (d : dict) :
  List.length d <> used ->
  disable_others enabled used keys d = (Raise RuntimeError, d).
Proof.
  intros H. apply Nat.eqb_neq in H.
  destruct keys; simpl; rewrite H; reflexivity.
Qed.

Lemma disable_others_spec (enabled : list str) (d : dict) (keys : list str) :
  (forall k, In k keys -> In k (map fst d)) ->
  fst (disable_others enabled (List.length d) keys d)
  = if forallb (fun k => list_contains k enabled) keys
    then Ok tt else Raise RuntimeError.
Proof.
  induction keys as [|k ks IH]; intros Hin; simpl;
    rewrite Nat.eqb_refl; simpl; [reflexivity|].
  destruct (list_contains k enabled); simpl.
  - apply IH. intros k' Hk'. apply Hin. right. exact Hk'.
  - rewrite disable_others_changed; [reflexivity|].
    pose proof (dict_pop_length k d (Hin k (or_introl eq_refl))). lia.
Qed.

Lemma disable_others_all_enabled (enabled : list str) (d : dict)
      (keys : list str) :
  forallb (fun k => list_contains k enabled) keys = true ->
  disable_others enabled (List.length d) keys d = (Ok tt, d).
Proof.
  induction keys as [|k ks IH]; simpl; rewrite Nat.eqb_refl; simpl;
    intros H; [reflexivity|].
  apply andb_true_iff in H as [Hk Hks]. rewrite Hk. simpl. apply IH, Hks.
Qed.

(** A cache that holds a model whose name is not enabled makes
    [load_clip_models] raise: popping it inside the loop over the cache
    changes the size of the dict the loop runs over. *)
Theorem load_clip_models_stale_cache (enabled : list str) (d : dict)
        (stale : str) :
  (forall k, In k enabled -> exists m, clip_load k = Ok m) ->
  In stale (map fst d) ->
  ~ In stale enabled ->
  fst (load_clip_models clip_load enabled d) = Raise RuntimeError.
Proof.
  intros Hload Hin Hout. unfold load_clip_models.
  destruct (load_enabled_ok enabled d Hload) as (fresh & Hrun & _).
  rewrite Hrun.
  pose proof (disable_others_spec enabled (d ++ fresh) (map fst (d ++ fresh))
                (fun k H => H)) as Hspec.
  destruct (disable_others _ _ _ _) as [r d']. simpl in Hspec. subst r.
  destruct (forallb _ _) eqn:Hall; [|reflexivity].
  exfalso. rewrite forallb_forall in Hall.
  apply Hout, list_contains_In, Hall.
  rewrite map_app, in_app_iff. left. exact Hin.
Qed.

(** When every cached name is enabled, the call returns the cached models
    in the order of the cache, followed by a freshly loaded model for each
    enabled name that was missing; the cache ends up holding all of them. *)
Theorem load_clip_models_reuses_cache (enabled : list str) (d : dict) :
  (forall k, In k enabled -> exists m, clip_load k = Ok m) ->
  (forall k, In k (map fst d) -> In k enabled) ->
  exists fresh,
    load_clip_models clip_load enabled d
    = (Ok (map snd d ++ map snd fresh), d ++ fresh)
    /\ (forall k, In k enabled -> In k (map fst (d ++ fresh)))
    /\ (forall k m, In (k, m) fresh ->
                    clip_load k = Ok m /\ In k enabled /\ ~ In k (map fst d))
    /\ NoDup (map fst fresh).
Proof.
  intros Hload Hsub. unfold load_clip_models.
  destruct (load_enabled_ok enabled d Hload)
    as (fresh & Hrun & Hfresh & Hall & Hnew & Hnd).
  rewrite Hrun. exists fresh.
  rewrite disable_others_all_enabled.
  - rewrite map_app. split; [reflexivity|]. split; [exact Hall|].
    split; [|exact Hnd].
    intros k m Hin. destruct (Hnew _ _ Hin) as [Hl Hn].
    split; [exact Hl|]. split; [|exact Hn].
    apply Hfresh, in_map_iff. exists (k, m). auto.
  - apply forallb_forall. intros k Hk. apply list_contains_In.
    rewrite map_app, in_app_iff in Hk. destruct Hk as [Hk|Hk]; auto.
Qed.

End ClipCacheFacts.

Lemma load_clip_models_stale_cache_witness :
  fst (load_clip_models (fun k => Ok k) [lit "RN50"]
         [(lit "ViT-B/32", lit "ViT-B/32")])
  = Raise RuntimeError.
Proof.
  apply (@load_clip_models_stale_cache str (fun k => Ok k) [lit "RN50"]
           [(lit "ViT-B/32", lit "ViT-B/32")] (lit "ViT-B/32")).
  - intros k _. exists k. reflexivity.
  - left. reflexivity.
  - intros [H|[]]. discriminate.
Defined.

Lemma load_clip_models_reuses_cache_witness :
  exists fresh,
    load_clip_models (fun k => Ok k) [lit "RN50"; lit "RN101"]
                     [(lit "RN101", lit "RN101")]
    = (Ok (map snd [(lit "RN101", lit "RN101")] ++ map snd fresh),
       [(lit "RN101", lit "RN101")] ++ fresh)
    /\ (forall k, In k [lit "RN50"; lit "RN101"] ->
                  In k (map fst ([(lit "RN101", lit "RN101")] ++ fresh)))
    /\ (forall k m, In (k, m) fresh ->
                    Ok k = Ok m /\ In k [lit "RN50"; lit "RN101"]
                    /\ ~ In k (map fst [(lit "RN101", lit "RN101")]))
    /\ NoDup (map fst fresh).
Proof.
  apply (@load_clip_models_reuses_cache str (fun k => Ok k)
           [lit "RN50"; lit "RN101"] [(lit "RN101", lit "RN101")]).
  - intros k _. exists k. reflexivity.
  - intros k [<- | []]. right. left. reflexivity.
Defined.

(** ** The resampler *)

Lemma removelast_rev {A : Type} (l : list A) : removelast (rev l) = rev (tl l).
Proof.
  destruct l as [|a l]; simpl; [reflexivity|]. apply removelast_last.
Qed.

Lemma tl_rev {A : Type} (l : list A) : tl (rev l) = rev (removelast l).
Proof.
  rewrite <- (rev_involutive l) at 2.
  rewrite removelast_rev, rev_involutive. reflexivity.
Qed.

Lemma tl_removelast {A : Type} (l : list A) :
  tl (removelast l) = removelast (tl l).
Proof. destruct l as [|a [|b l]]; reflexivity. Qed.

Lemma strip_ends_rev {A : Type} (l : list A) :
  strip_ends (rev l) = rev (strip_ends l).
Proof.
  unfold strip_ends.
  rewrite tl_rev, removelast_rev, tl_removelast. reflexivity.
Qed.

Lemma removelast_map {A B : Type} (f : A -> B) (l : list A) :
  removelast (map f l) = map f (removelast l).
Proof.
  induction l as [|a [|b l] IH]; simpl in *; try reflexivity.
  f_equal. exact IH.
Qed.

Lemma strip_ends_map {A B : Type} (f : A -> B) (l : list A) :
  strip_ends (map f l) = map f (strip_ends l).
Proof.
  unfold strip_ends. rewrite <- removelast_map. f_equal.
  destruct l; reflexivity.
Qed.

Lemma removelast_length {A : Type} (l : list A) :
  List.length (removelast l) = (List.length l - 1)%nat.
Proof.
  induction l as [|a [|b l] IH]; simpl in *; try reflexivity.
  rewrite IH. lia.
Qed.

Lemma strip_ends_length {A : Type} (l : list A) :
  List.length (strip_ends l) = (List.length l - 2)%nat.
Proof.
  unfold strip_ends. rewrite removelast_length, length_tl. lia.
Qed.

Lemma Qopp_twice (q : Q) : Qopp (Qopp q) = q.
Proof. destruct q as [a b]. unfold Qopp. simpl. f_equal. lia. Qed.

Lemma ramp_fill_length (fl : Q -> Q) (n : nat) (cur ratio : Q) :
  List.length (ramp_fill fl n cur ratio) = n.
Proof.
  revert cur. induction n as [|n IH]; intros cur; simpl; [|rewrite IH];
    reflexivity.
Qed.

(** The points [ramp] returns are laid out evenly on both sides of zero:
    read backwards with the signs changed they are the same points, and
    there is an odd number [2 n - 3] of them, [n] being the rounded
    [ceil(width / ratio + 1)], when that is at least 2. *)
Theorem ramp_antisymmetric (fl : Q -> Q) (ratio width : Q) (xs : list Q) :
  ramp fl ratio width = Ok xs ->
  map Qopp (rev xs) = xs
  /\ List.length xs
     = Z.to_nat (2 * Qceiling (fl (fl (width / ratio) + 1))%Q - 3).
Proof.
  unfold ramp. destruct (Qeq_bool ratio 0); [discriminate|].
  set (n := Qceiling (fl (fl (width / ratio) + 1))%Q).
  destruct (Z.ltb_spec n 0) as [Hneg|Hpos]; [discriminate|].
  intros H. injection H as <-.
  set (out := ramp_fill fl (Z.to_nat n) 0%Q ratio).
  split.
  - rewrite <- strip_ends_rev, <- strip_ends_map. f_equal.
    rewrite rev_app_distr, map_app.
    rewrite <- (map_rev Qopp (rev (tl out))), rev_involutive, map_map.
    rewrite (map_ext _ (fun q => q) Qopp_twice), map_id.
    subst out. destruct (Z.to_nat n) as [|m]; simpl; [reflexivity|].
    rewrite map_app, <- app_assoc. reflexivity.
  - rewrite strip_ends_length, length_app, length_map, length_rev, length_tl.
    subst out. rewrite ramp_fill_length. lia.
Qed.

Lemma ramp_antisymmetric_witness :
  map Qopp (rev [- (1 # 2); 0; 1 # 2]%Q) = [- (1 # 2); 0; 1 # 2]%Q
  /\ List.length [- (1 # 2); 0; 1 # 2]%Q
     = Z.to_nat (2 * Qceiling (1 / (1 # 2) + 1)%Q - 3).
Proof.
  apply (@ramp_antisymmetric (fun q => q) (1 # 2) 1). reflexivity.
Defined.

Local Open Scope R_scope.

Lemma sinc_even (x : R) : sinc (- x) = sinc x.
Proof.
  unfold sinc.
  destruct (Req_dec_T x 0) as [E|N]; destruct (Req_dec_T (- x) 0) as [E'|N'];
    try reflexivity; try (exfalso; lra).
  replace (PI * - x) with (- (PI * x)) by ring.
  rewrite sin_neg. pose proof PI_RGT_0. field. split; lra.
Qed.

Lemma lanczos_window_even (a x : R) :
  lanczos_window a (- x) = lanczos_window a x.
Proof.
  unfold lanczos_window.
  destruct (Rlt_dec (- a) (- x)); destruct (Rlt_dec (- x) a);
    destruct (Rlt_dec (- a) x); destruct (Rlt_dec x a);
    try reflexivity; try (exfalso; lra).
  rewrite sinc_even. replace (- x / a) with (- (x / a)) by (unfold Rdiv; ring).
  rewrite sinc_even. reflexivity.
Qed.

(** On points laid out evenly about zero, as [ramp] gives them, the
    Lanczos kernel reads the same in both directions. *)
Theorem lanczos_symmetric (xs : list R) (a : R) :
  map Ropp (rev xs) = xs -> rev (lanczos xs a) = lanczos xs a.
Proof.
  intros Hxs. unfold lanczos.
  assert (Hout : rev (map (lanczos_window a) xs) = map (lanczos_window a) xs).
  { rewrite <- map_rev. rewrite <- Hxs at 2. rewrite map_map.
    apply map_ext. intros x. symmetry. apply lanczos_window_even. }
  rewrite <- map_rev, Hout. reflexivity.
Qed.

Lemma lanczos_symmetric_witness :
  rev (lanczos [-1; 0; 1] 2) = lanczos [-1; 0; 1] 2.
Proof.
  apply lanczos_symmetric. simpl.
  repeat (f_equal; try lra).
Defined.

Lemma sum_scaled (k : R) (l : list R) :
  fold_right Rplus 0 (map (fun v => v / k) l) = fold_right Rplus 0 l / k.
Proof.
  induction l as [|v l IH]; simpl; [unfold Rdiv; ring|].
  rewrite IH. unfold Rdiv. ring.
Qed.

(** When the window values do not sum to zero, the kernel is finite and
    its entries sum to one. *)
Theorem lanczos_sums_to_one (xs : list R) (a : R) :
  fold_right Rplus 0 (map (lanczos_window a) xs) <> 0 ->
  exists kernel,
    lanczos xs a = map Fin kernel
    /\ List.length kernel = List.length xs
    /\ fold_right Rplus 0 kernel = 1.
Proof.
  intros Hs. unfold lanczos.
  set (out := map (lanczos_window a) xs) in *.
  set (s := fold_right Rplus 0 out) in *.
  exists (map (fun v => v / s) out). split; [|split].
  - rewrite map_map. apply map_ext. intros v. unfold fdiv.
    destruct (Req_dec_T s 0) as [E|_]; [contradiction | reflexivity].
  - unfold out. rewrite !length_map. reflexivity.
  - rewrite sum_scaled. fold s. field. exact Hs.
Qed.

Lemma lanczos_sums_to_one_witness :
  exists kernel,
    lanczos [0] 2 = map Fin kernel
    /\ List.length kernel = 1%nat
    /\ fold_right Rplus 0 kernel = 1.
Proof.
  apply (lanczos_sums_to_one [0] 2). simpl.
  unfold lanczos_window, sinc. repeat settle_real.
  intros E. lra.
Defined.

Local Open Scope Z_scope.

(** Exact arithmetic is one instance of the rounding. *)
Lemma exact_double_precision : double_precision (fun q => q).
Proof.
  intros q. setoid_replace (q - q)%Q with 0%Q by ring.
  apply Qmult_le_0_compat; [discriminate | apply Qabs_nonneg].
Qed.

Lemma fl_zero (fl : Q -> Q) (q : Q) :
  double_precision fl -> (q == 0)%Q -> (fl q == 0)%Q.
Proof.
  intros Hfl Hq. specialize (Hfl q).
  apply Qabs_Qle_condition in Hfl. destruct Hfl as [Hlo Hhi].
  assert (Ha : (Qabs q == 0)%Q) by (rewrite Hq; reflexivity).
  unfold double_eps in Hlo, Hhi. Lqa.lra.
Qed.

(** One percent is a generous bound on the error of one operation. *)
Lemma fl_bounds (fl : Q -> Q) (q : Q) :
  double_precision fl -> (0 <= q)%Q ->
  ((99 # 100) * q <= fl q <= (101 # 100) * q)%Q.
Proof.
  intros Hfl Hq. specialize (Hfl q).
  rewrite (Qabs_pos q Hq) in Hfl.
  apply Qabs_Qle_condition in Hfl. unfold double_eps in Hfl.
  destruct Hfl as [Hlo Hhi]. split; Lqa.lra.
Qed.

(** The number [n] of points [ramp] is asked for when a side [s] goes
    down to [d], whatever the rounding. *)
Lemma kernel_taps (fl : Q -> Q) (d s : Z) :
  double_precision fl ->
  0 < d < s ->
  let r := fl (inject_Z d / inject_Z s)%Q in
  let n := Qceiling (fl (fl (2 / r) + 1))%Q in
  (0 < r)%Q /\ 3 <= n /\ (3 <= d -> n <= s + 1) /\ (d = 1 -> s + 2 <= n).
Proof.
  intros Hfl [Hd Hs] r n.
  set (D := inject_Z d). set (S := inject_Z s).
  assert (HD : (1 <= D)%Q) by (unfold D; rewrite <- (Zle_Qle 1); lia).
  assert (HDS : (D + 1 <= S)%Q).
  { unfold D, S. change 1%Q with (inject_Z 1).
    rewrite <- inject_Z_plus, <- Zle_Qle. lia. }
  assert (HS0 : ~ (S == 0)%Q) by (intros E; rewrite E in HDS; Lqa.lra).
  assert (Hx : (0 <= D / S)%Q).
  { apply Qle_shift_div_l; Lqa.lra. }
  destruct (@fl_bounds fl (D / S)%Q Hfl Hx) as [Hrlo Hrhi].
  fold r in Hrlo, Hrhi.
  assert (HxS : (D / S * S == D)%Q) by (field; exact HS0).
  assert (HrS_lo : ((99 # 100) * D <= r * S)%Q).
  { rewrite <- HxS, Qmult_assoc.
    apply Qmult_le_compat_r; [exact Hrlo | Lqa.lra]. }
  assert (HrS_hi : (r * S <= (101 # 100) * D)%Q).
  { rewrite <- HxS, Qmult_assoc.
    apply Qmult_le_compat_r; [exact Hrhi | Lqa.lra]. }
  assert (Hr0 : (0 < r)%Q).
  { destruct (Qlt_le_dec 0 r) as [H|H]; [exact H|]. exfalso.
    assert (r * S <= 0 * S)%Q
      by (apply Qmult_le_compat_r; [exact H | Lqa.lra]).
    Lqa.lra. }
  assert (Hr1 : (r < 101 # 100)%Q).
  { destruct (Qlt_le_dec r (101 # 100)) as [H|H]; [exact H|]. exfalso.
    assert ((101 # 100) * S <= r * S)%Q
      by (apply Qmult_le_compat_r; [exact H | Lqa.lra]).
    Lqa.lra. }
  set (y := (2 / r)%Q).
  assert (Hy_lo : ((200 # 101) < y)%Q).
  { unfold y. apply Qlt_shift_div_l; [exact Hr0 | Lqa.lra]. }
  assert (Hy0 : (0 <= y)%Q) by Lqa.lra.
  destruct (@fl_bounds fl y Hfl Hy0) as [Halo Hahi].
  set (a := fl y) in *.
  assert (Ha1 : (0 <= a + 1)%Q) by Lqa.lra.
  destruct (@fl_bounds fl (a + 1)%Q Hfl Ha1) as [Hblo Hbhi].
  fold y a in n.
  set (b := fl (a + 1)%Q) in *.
  split; [exact Hr0|]. split; [|split].
  - assert (Hb : (inject_Z 2 < b)%Q) by (change (inject_Z 2) with 2%Q; Lqa.lra).
    pose proof (Qle_ceiling b) as Hc. fold n in Hc.
    assert (H2n : (inject_Z 2 < inject_Z n)%Q)
      by (eapply Qlt_le_trans; eassumption).
    rewrite <- Zlt_Qlt in H2n. lia.
  - intros H3.
    assert (HD3 : (3 <= D)%Q) by (unfold D; rewrite <- (Zle_Qle 3); lia).
    assert (Hy_hi : (y <= (200 # 297) * S)%Q).
    { unfold y. apply Qle_shift_div_r; [exact Hr0|].
      setoid_replace ((200 # 297) * S * r)%Q with ((200 # 297) * (r * S))%Q
        by ring.
      Lqa.lra. }
    assert (Hb : (b <= inject_Z (s + 1))%Q).
    { rewrite inject_Z_plus. fold S. change (inject_Z 1) with 1%Q. Lqa.lra. }
    apply Qceiling_resp_le in Hb. rewrite Qceiling_Z in Hb. exact Hb.
  - intros H1.
    assert (HD1 : (D == 1)%Q) by (unfold D; rewrite H1; reflexivity).
    assert (Hy_lo' : ((200 # 101) * S <= y)%Q).
    { unfold y. apply Qle_shift_div_l; [exact Hr0|].
      setoid_replace ((200 # 101) * S * r)%Q with ((200 # 101) * (r * S))%Q
        by ring.
      Lqa.lra. }
    assert (HS2 : (2 <= S)%Q) by Lqa.lra.
    assert (Hb : (inject_Z (s + 1) < b)%Q).
    { rewrite inject_Z_plus. fold S. change (inject_Z 1) with 1%Q. Lqa.lra. }
    pose proof (Qle_ceiling b) as Hc. fold n in Hc.
    assert (Hn : (inject_Z (s + 1) < inject_Z n)%Q)
      by (eapply Qlt_le_trans; eassumption).
    rewrite <- Zlt_Qlt in Hn. lia.
Qed.

Lemma ramp_length (fl : Q -> Q) (ratio width : Q) (xs : list Q) :
  ramp fl ratio width = Ok xs ->
  List.length xs
  = Z.to_nat (2 * Qceiling (fl (fl (width / ratio) + 1))%Q - 3).
Proof.
  unfold ramp. destruct (Qeq_bool ratio 0); [discriminate|].
  destruct (Z.ltb_spec (Qceiling (fl (fl (width / ratio) + 1))%Q) 0)
    as [Hneg|Hpos]; [discriminate|].
  intros H. injection H as <-.
  rewrite strip_ends_length, length_app, length_map, length_rev, length_tl.
  rewrite ramp_fill_length. lia.
Qed.

Lemma lanczos_length (xs : list R) (a : R) :
  List.length (lanczos xs a) = List.length xs.
Proof. unfold lanczos. rewrite !length_map. reflexivity. Qed.

(** The kernel that takes a side [s] down to a smaller [d] has
    [2 n - 3] taps, [n] being the rounded [ceil(2 / (d / s) + 1)]. *)
Lemma resample_kernel_length (fl : Q -> Q) (d s : Z) :
  double_precision fl ->
  0 < d < s ->
  exists kernel,
    resample_kernel fl d s = Ok kernel
    /\ Z.of_nat (List.length kernel)
       = 2 * Qceiling (fl (fl (2 / fl (inject_Z d / inject_Z s)) + 1))%Q - 3.
Proof.
  intros Hfl Hds. unfold resample_kernel.
  destruct (Z.eqb_spec s 0) as [?|_]; [lia|].
  pose proof (@kernel_taps fl d s Hfl Hds) as (Hr & H3 & _).
  cbv zeta in Hr, H3.
  destruct (ramp fl (fl (inject_Z d / inject_Z s)%Q) 2%Q) as [xs|e] eqn:Hramp.
  - exists (lanczos (map Q2R xs) 2). split; [reflexivity|].
    rewrite lanczos_length, length_map, (@ramp_length _ _ _ _ Hramp). lia.
  - exfalso. unfold ramp in Hramp.
    destruct (Qeq_bool _ 0) eqn:E.
    + apply Qeq_bool_iff in E. rewrite E in Hr. discriminate.
    + destruct (Z.ltb_spec
                  (Qceiling (fl (fl (2 / fl (inject_Z d / inject_Z s)) + 1))%Q)
                  0);
        [lia | discriminate].
Qed.

Lemma resample_pass_same (fl : Q -> Q) (d s : Z) :
  double_precision fl ->
  s <= d \/ 3 <= d < s -> resample_pass fl d s = Ok s.
Proof.
  unfold resample_pass. intros Hfl [H|H].
  - destruct (Z.ltb_spec d s); [lia | reflexivity].
  - destruct (Z.ltb_spec d s) as [_|?]; [|lia].
    destruct (@resample_kernel_length fl d s Hfl ltac:(lia)) as (k & -> & Hk).
    pose proof (@kernel_taps fl d s Hfl ltac:(lia)) as (_ & H3 & Hup & _).
    cbv zeta in H3, Hup.
    specialize (Hup ltac:(lia)). cbn [bind]. rewrite Hk.
    set (c := Qceiling (fl (fl (2 / fl (inject_Z d / inject_Z s)) + 1))%Q) in *.
    replace ((2 * c - 3 - 1) / 2) with (c - 2)
      by (apply Z.div_unique with 0; lia).
    destruct (Z.eqb_spec (2 * c - 3) 0); [lia|].
    destruct (Z.leb_spec s (c - 2)); [lia|]. cbn [orb]. f_equal. lia.
Qed.

(** One pass of the resampler leaves the length of the side as it was,
    so that the reshape back to the input's shape fits, when the target is
    at least 3 or is not smaller than the side.  A target of 1 below the
    side needs a reflect padding as long as the side or longer, and
    raises; a target of 0 raises on the division by the ratio. *)
Theorem resample_pass_keeps_side (fl : Q -> Q) (d s : Z) :
  double_precision fl ->
  (s <= d -> resample_pass fl d s = Ok s)
  /\ (3 <= d < s -> resample_pass fl d s = Ok s)
  /\ (d = 1 -> 1 < s -> resample_pass fl d s = Raise RuntimeError)
  /\ (d = 0 -> 0 < s -> resample_pass fl d s = Raise ZeroDivisionError).
Proof.
  intros Hfl. split; [|split; [|split]].
  - intros H. apply resample_pass_same; [exact Hfl | left; exact H].
  - intros H. apply resample_pass_same; [exact Hfl | right; exact H].
  - unfold resample_pass.
    intros -> Hs. destruct (Z.ltb_spec 1 s) as [_|?]; [|lia].
    destruct (@resample_kernel_length fl 1 s Hfl ltac:(lia)) as (k & -> & Hk).
    pose proof (@kernel_taps fl 1 s Hfl ltac:(lia)) as (_ & H3 & _ & Hlow).
    cbv zeta in H3, Hlow. specialize (Hlow eq_refl). cbn [bind]. rewrite Hk.
    set (c := Qceiling (fl (fl (2 / fl (inject_Z 1 / inject_Z s)) + 1))%Q) in *.
    replace ((2 * c - 3 - 1) / 2) with (c - 2)
      by (apply Z.div_unique with 0; lia).
    destruct (Z.eqb_spec (2 * c - 3) 0); [lia|].
    destruct (Z.leb_spec s (c - 2)); [reflexivity | lia].
  - unfold resample_pass.
    intros -> Hs. destruct (Z.ltb_spec 0 s) as [_|?]; [|lia].
    unfold resample_kernel, ramp.
    destruct (Z.eqb_spec s 0) as [?|_]; [lia|].
    replace (Qeq_bool (fl (inject_Z 0 / inject_Z s)%Q) 0) with true;
      [reflexivity|].
    symmetry. apply Qeq_bool_iff.
    apply fl_zero; [exact Hfl | unfold Qdiv; apply Qmult_0_l].
Qed.

Lemma resample_pass_keeps_side_witness :
  resample_pass (fun q => q) 224 224 = Ok 224
  /\ resample_pass (fun q => q) 224 614 = Ok 614
  /\ resample_pass (fun q => q) 1 614 = Raise RuntimeError
  /\ resample_pass (fun q => q) 0 614 = Raise ZeroDivisionError.
Proof.
  pose proof (@resample_pass_keeps_side (fun q => q) 224 224
                exact_double_precision) as (H1 & _).
  pose proof (@resample_pass_keeps_side (fun q => q) 224 614
                exact_double_precision) as (_ & H2 & _).
  pose proof (@resample_pass_keeps_side (fun q => q) 1 614
                exact_double_precision) as (_ & _ & H3 & _).
  pose proof (@resample_pass_keeps_side (fun q => q) 0 614
                exact_double_precision) as (_ & _ & _ & H4).
  split; [|split; [|split]].
  - apply H1. lia.
  - apply H2. lia.
  - apply H3; [reflexivity | lia].
  - apply H4; [reflexivity | lia].
Defined.

Lemma resample_same_sides (fl : Q -> Q) (input : shape4) (dh dw : Z) :
  double_precision fl ->
  0 < dim2 input -> 0 < dim3 input ->
  0 < dh -> 0 < dw ->
  (3 <= dh \/ dim2 input <= dh) ->
  (3 <= dw \/ dim3 input <= dw) ->
  resample fl input (dh, dw)
  = Ok {| dim0 := dim0 input; dim1 := dim1 input;
          dim2 := dh; dim3 := dw |}.
Proof.
  intros Hfl Hh Hw Hdh Hdw Hth Htw. unfold resample.
  assert (Hph : resample_pass fl dh (dim2 input) = Ok (dim2 input))
    by (apply resample_pass_same; [exact Hfl | lia]).
  assert (Hpw : resample_pass fl dw (dim3 input) = Ok (dim3 input))
    by (apply resample_pass_same; [exact Hfl | lia]).
  rewrite Hph, Hpw. simpl.
  replace (dim0 input * dim1 input * 1 * dim2 input * dim3 input
           =? dim0 input * dim1 input * dim2 input * dim3 input) with true
    by (symmetry; apply Z.eqb_eq; ring).
  simpl.
  destruct (Z.leb_spec (dim2 input) 0); [lia|].
  destruct (Z.leb_spec (dim3 input) 0); [lia|].
  destruct (Z.leb_spec dh 0); [lia|].
  destruct (Z.leb_spec dw 0); [lia|]. reflexivity.
Qed.

(** [resample] returns a tensor of the batch and channels of its input
    and of the size asked for, whenever each target side is at least 3 or
    not below the side it replaces. *)
Theorem resample_gives_target_size (fl : Q -> Q) (input : shape4)
        (dh dw : Z) :
  double_precision fl ->
  0 < dim2 input -> 0 < dim3 input ->
  0 < dh -> 0 < dw ->
  (3 <= dh \/ dim2 input <= dh) ->
  (3 <= dw \/ dim3 input <= dw) ->
  resample fl input (dh, dw)
  = Ok {| dim0 := dim0 input; dim1 := dim1 input;
          dim2 := dh; dim3 := dw |}.
Proof. apply resample_same_sides. Qed.

Lemma resample_gives_target_size_witness :
  resample (fun q => q)
           {| dim0 := 1; dim1 := 3; dim2 := 614; dim3 := 614 |} (224, 224)
  = Ok {| dim0 := 1; dim1 := 3; dim2 := 224; dim3 := 224 |}.
Proof.
  apply (@resample_gives_target_size (fun q => q)
           {| dim0 := 1; dim1 := 3; dim2 := 614; dim3 := 614 |} 224 224);
    [exact exact_double_precision | simpl; lia ..].
Defined.

(** ** The auxiliary losses *)

Local Open Scope R_scope.

Lemma rsum_nonneg (l : list R) : Forall (fun v => 0 <= v) l -> 0 <= rsum l.
Proof.
  unfold rsum. induction 1 as [|v l Hv _ IH]; simpl; lra.
Qed.

Lemma rsum_zero_iff (l : list R) :
  Forall (fun v => 0 <= v) l ->
  rsum l = 0 <-> Forall (fun v => v = 0) l.
Proof.
  induction 1 as [|v l Hv Hl IH]; simpl.
  - split; [constructor | reflexivity].
  - pose proof (rsum_nonneg Hl) as Hs. unfold rsum in *. simpl. split.
    + intros H. constructor; [lra|]. apply IH. lra.
    + intros H. inversion H as [|? ? Hv0 Hl0]; subst.
      apply IH in Hl0. lra.
Qed.

Lemma fmean_nonempty (l : list R) :
  l <> [] -> fmean l = Fin (rsum l / INR (List.length l)).
Proof.
  intros Hne. unfold fmean, fdiv.
  destruct (Req_dec_T (INR (List.length l)) 0) as [E|_]; [|reflexivity].
  exfalso. destruct l as [|v l]; [contradiction|].
  pose proof (lt_0_INR (List.length (v :: l)) ltac:(simpl; lia)). lra.
Qed.

Lemma fmean_empty : fmean [] = NaN.
Proof.
  unfold fmean, fdiv, rsum. simpl.
  destruct (Req_dec_T 0 0) as [_|N]; [|exfalso; lra].
  destruct (Rlt_dec 0 0); [exfalso; lra|]. reflexivity.
Qed.

(** The mean of entries none of which is negative: a finite number, not
    negative, and 0 exactly when every entry is 0. *)
Lemma fmean_nonneg (l : list R) :
  l <> [] ->
  Forall (fun v => 0 <= v) l ->
  (exists r, fmean l = Fin r /\ 0 <= r)
  /\ (fmean l = Fin 0 <-> Forall (fun v => v = 0) l).
Proof.
  intros Hne Hpos. rewrite (fmean_nonempty Hne).
  assert (Hn : 0 < INR (List.length l)).
  { destruct l as [|v l]; [contradiction|]. apply lt_0_INR. simpl. lia. }
  pose proof (rsum_nonneg Hpos) as Hs. split.
  - eexists. split; [reflexivity|].
    apply Rmult_le_pos; [exact Hs | apply Rlt_le, Rinv_0_lt_compat, Hn].
  - rewrite <- (rsum_zero_iff Hpos). split.
    + intros H. injection H as H.
      apply (Rmult_eq_compat_r (INR (List.length l))) in H.
      unfold Rdiv in H. rewrite Rmult_assoc, Rinv_l, Rmult_1_r, Rmult_0_l in H;
        [exact H | lra].
    + intros ->. f_equal. unfold Rdiv. ring.
Qed.

Lemma Forall_equiv {A : Type} (P Q : A -> Prop) (l : list A) :
  (forall x, P x <-> Q x) -> Forall P l <-> Forall Q l.
Proof.
  intros H. split; apply Forall_impl; intros x; apply H.
Qed.

Lemma clamp_unit_fixed (x : R) : x - clamp_unit x = 0 <-> -1 <= x <= 1.
Proof.
  unfold clamp_unit, Rmin, Rmax.
  destruct (Rle_dec x (-1)); destruct (Rle_dec (-1) 1);
    destruct (Rle_dec x 1); lra.
Qed.

(** On finite entries and in exact arithmetic, the range loss of a
    sample is 0 exactly when all its entries lie in [[-1, 1]]; otherwise
    it is positive.  On a sample with no entry it is NaN. *)
Theorem range_loss_vanishes :
  range_loss [] = NaN
  /\ (forall sample,
         sample <> [] ->
         (exists r, range_loss sample = Fin r /\ 0 <= r)
         /\ (range_loss sample = Fin 0
             <-> Forall (fun x => -1 <= x <= 1) sample)).
Proof.
  split; [apply fmean_empty|].
  intros sample Hne. unfold range_loss.
  set (terms := map (fun x => (x - clamp_unit x) ^ 2) sample).
  assert (Hne' : terms <> [])
    by (subst terms; destruct sample; [contradiction | discriminate]).
  assert (Hpos : Forall (fun v => 0 <= v) terms).
  { subst terms. apply Forall_forall. intros v Hv.
    apply in_map_iff in Hv as (x & <- & _). apply pow2_ge_0. }
  destruct (fmean_nonneg Hne' Hpos) as [Hfin Hzero].
  split; [exact Hfin|]. rewrite Hzero. subst terms.
  rewrite Forall_map. apply Forall_equiv.
  intros x. rewrite <- clamp_unit_fixed. split; [nra | intros ->; ring].
Qed.

Lemma range_loss_vanishes_witness :
  range_loss [0; 1; -1] = Fin 0 <-> Forall (fun x => -1 <= x <= 1) [0; 1; -1].
Proof.
  apply (proj2 range_loss_vanishes [0; 1; -1]). discriminate.
Defined.

(** On finite entries and in exact arithmetic, the saturation loss is 0
    exactly when all entries of the guided image lie in [[-1, 1]], and is
    positive otherwise. *)
Theorem sat_losses_vanish (x_in : list R) :
  x_in <> [] ->
  (exists r, sat_losses x_in = Fin r /\ 0 <= r)
  /\ (sat_losses x_in = Fin 0 <-> Forall (fun x => -1 <= x <= 1) x_in).
Proof.
  intros Hne. unfold sat_losses.
  set (terms := map (fun x => Rabs (x - clamp_unit x)) x_in).
  assert (Hne' : terms <> [])
    by (subst terms; destruct x_in; [contradiction | discriminate]).
  assert (Hpos : Forall (fun v => 0 <= v) terms).
  { subst terms. apply Forall_forall. intros v Hv.
    apply in_map_iff in Hv as (x & <- & _). apply Rabs_pos. }
  destruct (fmean_nonneg Hne' Hpos) as [Hfin Hzero].
  split; [exact Hfin|]. rewrite Hzero. subst terms.
  rewrite Forall_map. apply Forall_equiv.
  intros x. rewrite <- clamp_unit_fixed. split.
  - intros H. destruct (Req_dec (x - clamp_unit x) 0) as [E|N]; [exact E|].
    apply Rabs_no_R0 in N. contradiction.
  - intros ->. apply Rabs_R0.
Qed.

Lemma sat_losses_vanish_witness :
  sat_losses [0; 1] = Fin 0 <-> Forall (fun x => -1 <= x <= 1) [0; 1].
Proof.
  apply (proj2 (@sat_losses_vanish [0; 1] ltac:(discriminate))).
Defined.

Lemma zip_with_Forall {A : Type} (P : A -> Prop) (f : A -> A -> A)
      (a b : list A) :
  (forall x y, P (f x y)) -> Forall P (zip_with f a b).
Proof.
  intros Hf. revert b.
  induction a as [|x a IH]; intros [|y b]; simpl; constructor; auto.
Qed.

Lemma zip_with_repeat {A : Type} (f : A -> A -> A) (x y : A) (n : nat) :
  zip_with f (repeat x n) (repeat y n) = repeat (f x y) n.
Proof. induction n as [|n IH]; simpl; [|rewrite IH]; reflexivity. Qed.

Lemma removelast_repeat {A : Type} (x : A) (n : nat) :
  removelast (repeat x (S n)) = repeat x n.
Proof.
  induction n as [|n IH]; [reflexivity|].
  change (repeat x (S (S n))) with (x :: repeat x (S n)).
  change (removelast (x :: repeat x (S n)))
    with (x :: removelast (repeat x (S n))).
  rewrite IH. reflexivity.
Qed.

Lemma last_repeat {A : Type} (x d : A) (n : nat) : last (repeat x (S n)) d = x.
Proof.
  induction n as [|n IH]; [reflexivity|].
  change (repeat x (S (S n))) with (x :: repeat x (S n)).
  change (last (x :: repeat x (S n)) d) with (last (repeat x (S n)) d).
  exact IH.
Qed.

Lemma repeat_snoc {A : Type} (x : A) (n : nat) :
  repeat x n ++ [x] = repeat x (S n).
Proof. induction n as [|n IH]; simpl; [|rewrite IH]; reflexivity. Qed.

Lemma replicate_pad_flat (c : R) (h w : nat) :
  replicate_pad (repeat (repeat c (S w)) (S h))
  = repeat (repeat c (S (S w))) (S (S h)).
Proof.
  unfold replicate_pad. rewrite map_repeat, last_repeat, repeat_snoc.
  rewrite last_repeat, repeat_snoc. reflexivity.
Qed.

Lemma tv_terms_flat (c : R) (h w : nat) :
  tv_terms (repeat (repeat c (S w)) (S h))
  = List.concat (repeat (repeat ((c - c) ^ 2 + (c - c) ^ 2) (S w)) (S h)).
Proof.
  unfold tv_terms, x_diff, y_diff. rewrite replicate_pad_flat.
  rewrite (removelast_repeat _ (S h)), map_repeat.
  change (tl (repeat (repeat c (S (S w))) (S (S h))))
    with (repeat (repeat c (S (S w))) (S h)).
  change (tl (repeat c (S (S w)))) with (repeat c (S w)).
  repeat (rewrite zip_with_repeat || rewrite (removelast_repeat c (S w))).
  reflexivity.
Qed.

Lemma tv_terms_nonneg (ch : channel) : Forall (fun v => 0 <= v) (tv_terms ch).
Proof.
  unfold tv_terms. apply Forall_concat.
  apply Forall_forall. intros row Hrow.
  assert (H : Forall (Forall (fun v => 0 <= v))
                (zip_with (zip_with (fun dx dy => dx ^ 2 + dy ^ 2))
                          (x_diff (replicate_pad ch))
                          (y_diff (replicate_pad ch)))).
  { generalize (x_diff (replicate_pad ch)) (y_diff (replicate_pad ch)).
    intros a. induction a as [|x a IH]; intros [|y b]; simpl; constructor.
    - apply zip_with_Forall. intros dx dy.
      pose proof (pow2_ge_0 dx). pose proof (pow2_ge_0 dy). lra.
    - apply IH. }
  rewrite Forall_forall in H. apply H, Hrow.
Qed.

(** On finite entries and in exact arithmetic, the smoothness loss is
    never negative, and it is 0 on a sample each of whose channels is flat
    (one value at every pixel). *)
Theorem tv_loss_flat :
  (forall sample,
      List.concat (map tv_terms sample) <> [] ->
      exists r, tv_loss sample = Fin r /\ 0 <= r)
  /\ (forall (values : list R) (h w : nat),
         values <> [] ->
         tv_loss (map (fun c => repeat (repeat c (S w)) (S h)) values)
         = Fin 0).
Proof.
  split.
  - intros sample Hne. unfold tv_loss.
    apply (fmean_nonneg Hne). apply Forall_concat.
    apply Forall_forall. intros terms Hin.
    apply in_map_iff in Hin as (ch & <- & _). apply tv_terms_nonneg.
  - intros values h w Hne. unfold tv_loss.
    set (terms := List.concat
                    (map tv_terms
                         (map (fun c => repeat (repeat c (S w)) (S h)) values))).
    assert (Hzero : Forall (fun v => v = 0) terms).
    { subst terms. apply Forall_concat. apply Forall_forall. intros t Hin.
      apply in_map_iff in Hin as (ch & <- & Hch).
      apply in_map_iff in Hch as (c & <- & _).
      rewrite tv_terms_flat. apply Forall_concat.
      apply Forall_forall. intros row Hrow. apply repeat_spec in Hrow.
      subst row. apply Forall_forall. intros v Hv. apply repeat_spec in Hv.
      subst v. ring. }
    assert (Hne' : terms <> []).
    { subst terms. destruct values as [|c values]; [contradiction|].
      rewrite !map_cons, concat_cons, tv_terms_flat. simpl. discriminate. }
    apply (proj2 (fmean_nonneg Hne'
                    (Forall_impl _ (fun v (E : v = 0) => Req_le_sym _ _ E) Hzero))).
    exact Hzero.
Qed.

Lemma tv_loss_flat_witness :
  tv_loss (map (fun c => repeat (repeat c 2%nat) 2%nat) [1; 0; -1]) = Fin 0.
Proof.
  apply (proj2 tv_loss_flat [1; 0; -1] 1%nat 1%nat). discriminate.
Defined.

(** ** The Perlin initialiser *)

Local Open Scope R_scope.

(** [interp] is a smooth step: it fixes 0 and 1, keeps the unit interval
    and the order within it, and swaps with [t -> 1 - t]. *)
Theorem interp_smooth_step :
  interp 0 = 0
  /\ interp 1 = 1
  /\ (forall t, interp (1 - t) = 1 - interp t)
  /\ (forall t, 0 <= t <= 1 -> 0 <= interp t <= 1)
  /\ (forall s t, 0 <= s <= t -> t <= 1 -> interp s <= interp t).
Proof.
  unfold interp. split; [ring|]. split; [ring|]. split; [intros t; ring|].
  split.
  - intros t [H0 H1]. split.
    + replace (3 * t ^ 2 - 2 * t ^ 3) with (t * t * (3 - 2 * t)) by ring.
      apply Rmult_le_pos; [apply Rmult_le_pos; lra | lra].
    + assert (0 <= (1 - t) * (1 - t) * (1 + 2 * t))
        by (apply Rmult_le_pos; [apply Rmult_le_pos; lra | lra]).
      replace (3 * t ^ 2 - 2 * t ^ 3)
        with (1 - (1 - t) * (1 - t) * (1 + 2 * t)) by ring. lra.
  - intros s t [H0 Hst] H1.
    assert (0 <= (t - s) * (3 * (t + s) - 2 * (t * t + t * s + s * s))).
    { apply Rmult_le_pos; [lra|].
      assert (0 <= t * (1 - t)) by (apply Rmult_le_pos; lra).
      assert (0 <= s * (1 - s)) by (apply Rmult_le_pos; lra).
      assert (0 <= s * (1 - t)) by (apply Rmult_le_pos; lra).
      assert (0 <= t - s) by lra.
      nra. }
    replace (3 * t ^ 2 - 2 * t ^ 3)
      with (3 * s ^ 2 - 2 * s ^ 3
            + (t - s) * (3 * (t + s) - 2 * (t * t + t * s + s * s))) by ring.
    lra.
Qed.

Lemma interp_smooth_step_witness :
  interp (1 / 4) <= interp (1 / 2) /\ 0 <= interp (1 / 2) <= 1.
Proof.
  split.
  - apply (proj2 (proj2 (proj2 (proj2 interp_smooth_step)))); lra.
  - apply (proj1 (proj2 (proj2 (proj2 interp_smooth_step)))); lra.
Defined.

Lemma interp_unit (t : R) : 0 <= t <= 1 -> 0 <= interp t <= 1.
Proof.
  unfold interp. intros [H0 H1]. split.
  - replace (3 * t ^ 2 - 2 * t ^ 3) with (t * t * (3 - 2 * t)) by ring.
    apply Rmult_le_pos; [apply Rmult_le_pos; lra | lra].
  - assert (0 <= (1 - t) * (1 - t) * (1 + 2 * t))
      by (apply Rmult_le_pos; [apply Rmult_le_pos; lra | lra]).
    replace (3 * t ^ 2 - 2 * t ^ 3)
      with (1 - (1 - t) * (1 - t) * (1 + 2 * t)) by ring. lra.
Qed.

(** The noise field is 0 at every corner of the lattice, and inside a
    cell it is a weighted mean of the four corner terms: it stays within
    any bounds that hold the four of them. *)
Theorem perlin_dot_blend (g00 g10 g01 g11 : R * R) :
  perlin_dot g00 g10 g01 g11 0 0 = 0
  /\ (forall xs ys lo hi,
         0 <= xs <= 1 -> 0 <= ys <= 1 ->
         lo <= fst g00 * xs + snd g00 * ys <= hi ->
         lo <= - fst g10 * (1 - xs) + snd g10 * ys <= hi ->
         lo <= fst g01 * xs - snd g01 * (1 - ys) <= hi ->
         lo <= - fst g11 * (1 - xs) - snd g11 * (1 - ys) <= hi ->
         lo <= perlin_dot g00 g10 g01 g11 xs ys <= hi).
Proof.
  split.
  - unfold perlin_dot, interp. ring.
  - intros xs ys lo hi Hx Hy H00 H10 H01 H11. unfold perlin_dot.
    pose proof (interp_unit Hx) as Ha. pose proof (interp_unit Hy) as Hb.
    set (a := interp xs) in *. set (b := interp ys) in *.
    set (d00 := fst g00 * xs + snd g00 * ys) in *.
    set (d10 := - fst g10 * (1 - xs) + snd g10 * ys) in *.
    set (d01 := fst g01 * xs - snd g01 * (1 - ys)) in *.
    set (d11 := - fst g11 * (1 - xs) - snd g11 * (1 - ys)) in *.
    assert (W00 : 0 <= (1 - a) * (1 - b)) by (apply Rmult_le_pos; lra).
    assert (W10 : 0 <= (1 - (1 - a)) * (1 - b)) by (apply Rmult_le_pos; lra).
    assert (W01 : 0 <= (1 - a) * (1 - (1 - b))) by (apply Rmult_le_pos; lra).
    assert (W11 : 0 <= (1 - (1 - a)) * (1 - (1 - b)))
      by (apply Rmult_le_pos; lra).
    pose proof (Rmult_le_compat_l _ _ _ W00 (proj1 H00)).
    pose proof (Rmult_le_compat_l _ _ _ W00 (proj2 H00)).
    pose proof (Rmult_le_compat_l _ _ _ W10 (proj1 H10)).
    pose proof (Rmult_le_compat_l _ _ _ W10 (proj2 H10)).
    pose proof (Rmult_le_compat_l _ _ _ W01 (proj1 H01)).
    pose proof (Rmult_le_compat_l _ _ _ W01 (proj2 H01)).
    pose proof (Rmult_le_compat_l _ _ _ W11 (proj1 H11)).
    pose proof (Rmult_le_compat_l _ _ _ W11 (proj2 H11)).
    split; nra.
Qed.

Lemma perlin_dot_blend_witness :
  - 2 <= perlin_dot (1, 1) (1, 1) (1, 1) (1, 1) (1 / 2) (1 / 2) <= 2.
Proof.
  apply (proj2 (perlin_dot_blend (1, 1) (1, 1) (1, 1) (1, 1)));
    simpl; lra.
Defined.

Local Open Scope Z_scope.

Lemma octave_shapes_same (octaves : list Q) :
  forall oct_width oct_height,
    Forall (fun shape =>
              shape = (oct_width * 2 ^ Z.of_nat (List.length octaves),
                       oct_height * 2 ^ Z.of_nat (List.length octaves)))
           (octave_shapes octaves (2 ^ Z.of_nat (List.length octaves))
                          oct_width oct_height).
Proof.
  induction octaves as [|o rest IH]; intros w h; [constructor|].
  cbn [octave_shapes List.length].
  assert (Hhalf : 2 ^ Z.of_nat (S (List.length rest)) / 2
                  = 2 ^ Z.of_nat (List.length rest)).
  { rewrite Nat2Z.inj_succ, Z.pow_succ_r by lia.
    rewrite Z.mul_comm, Z.div_mul by lia. reflexivity. }
  constructor; [reflexivity|].
  rewrite Hhalf. eapply Forall_impl; [|apply IH].
  intros shape ->. rewrite Nat2Z.inj_succ, Z.pow_succ_r by lia.
  f_equal; ring.
Qed.

Lemma octave_scales_even (octaves : list Q) :
  Forall (fun scale => 2 <= scale)
         (octave_scales octaves (2 ^ Z.of_nat (List.length octaves))).
Proof.
  induction octaves as [|o rest IH]; [constructor|].
  cbn [octave_scales List.length].
  assert (Hpow : 0 < 2 ^ Z.of_nat (List.length rest))
    by (apply Z.pow_pos_nonneg; lia).
  rewrite Nat2Z.inj_succ, Z.pow_succ_r by lia.
  constructor; [lia|].
  rewrite Z.mul_comm, Z.div_mul by lia. exact IH.
Qed.

(** In [perlin_ms] the scale halves while the lattice doubles, so all the
    octaves give fields of one shape, [width * 2 ^ n] by [height * 2 ^ n]
    for [n] octaves, which is what lets them be added up; and no octave is
    drawn at a scale below 2. *)
Theorem perlin_ms_octaves_agree (octaves : list Q) (width height : Z) :
  Forall (fun shape =>
            shape = (width * 2 ^ Z.of_nat (List.length octaves),
                     height * 2 ^ Z.of_nat (List.length octaves)))
         (perlin_ms_shapes octaves width height)
  /\ List.length (perlin_ms_shapes octaves width height)
     = List.length octaves
  /\ Forall (fun scale => 2 <= scale)
            (octave_scales octaves (2 ^ Z.of_nat (List.length octaves))).
Proof.
  split; [apply octave_shapes_same|]. split; [|apply octave_scales_even].
  unfold perlin_ms_shapes.
  generalize (2 ^ Z.of_nat (List.length octaves)) width height.
  induction octaves as [|o rest IH]; intros s w h; simpl;
    [|rewrite IH]; reflexivity.
Qed.

(** ** More on the guidance function *)

Local Open Scope R_scope.

Lemma dot_zero (rs : vec) : Forall (fun r => r = 0) rs -> dot rs rs = 0.
Proof.
  unfold dot. induction 1 as [|r rs Hr _ IH]; simpl; [reflexivity|].
  rewrite IH, Hr. ring.
Qed.

Lemma py_getitem_raises {A : Type} (l : list A) (i : Z) (e : exn) :
  py_getitem l i = Raise e -> e = IndexError.
Proof.
  unfold py_getitem, getitem_nat.
  destruct (_ || _); [congruence|].
  destruct (nth_error _ _); congruence.
Qed.

Lemma range_first (n : Z) : (0 < n)%Z -> exists rest, range n = 0%Z :: rest.
Proof.
  intros Hn. unfold range.
  destruct (Z.to_nat n) as [|k] eqn:E; [lia|].
  simpl. eexists. reflexivity.
Qed.

Section GuidanceEdges.

Variable model_stat : Type.
Variable blend : tensor -> tensor.
Variable clip_grad : model_stat -> Z -> Z -> Z -> Q -> tensor -> result tensor.
Variable aux_grad : tensor -> tensor.
Variable backprop : tensor -> tensor -> tensor.
Variable args : guidance_args.

(** A gradient whose root mean square does not exceed the ceiling comes
    back from the clamping as it went in. *)
Theorem clamp_keeps_small_gradient (x g : tensor) (rs : vec) :
  clamp_grad args = true ->
  tany isnan g = false ->
  data (tneg (backprop x g)) = map Fin rs ->
  0 < rms rs <= clamp_max args ->
  data (finish backprop args x g) = map Fin rs.
Proof.
  intros Hon Hnan Hd [Hpos Hle].
  unfold finish. rewrite Hnan, Hon. cbn [negb andb].
  destruct (@clamp_finite_any args (tneg (backprop x g)) rs Hd Hpos)
    as [Hdata _].
  rewrite Hdata, Rmin_left by exact Hle. f_equal.
  transitivity (map (fun r : R => r) rs); [|apply map_id].
  apply map_ext. intros r. field. lra.
Qed.

(** When the gradient is zero everywhere, the clamping divides zero by
    a zero magnitude: every entry of what [cond_fn] returns is NaN. *)
Theorem clamp_zero_gradient_nan (x g : tensor) (rs : vec) :
  clamp_grad args = true ->
  tany isnan g = false ->
  data (tneg (backprop x g)) = map Fin rs ->
  rs <> [] ->
  Forall (fun r => r = 0) rs ->
  data (finish backprop args x g) = map (fun _ => NaN) rs.
Proof.
  intros Hon Hnan Hd Hne Hzero.
  unfold finish. rewrite Hnan, Hon. cbn [negb andb].
  unfold clamp, clamp_by. rewrite (@magnitude_finite _ rs Hd Hne).
  assert (Hrms : rms rs = 0).
  { unfold rms. rewrite (dot_zero Hzero). unfold Rdiv.
    rewrite Rmult_0_l. apply sqrt_0. }
  rewrite Hrms. unfold tmap at 1. cbn [data]. rewrite Hd, map_map.
  apply map_ext_in. intros r Hr.
  rewrite Forall_forall in Hzero. rewrite (Hzero r Hr). simpl.
  destruct (Req_dec_T 0 0) as [_|N]; [|exfalso; lra].
  destruct (Rlt_dec 0 (0 * Rmin 0 (clamp_max args))) as [H|_];
    [exfalso; lra|].
  destruct (Rlt_dec (0 * Rmin 0 (clamp_max args)) 0) as [H|_];
    [exfalso; lra|].
  reflexivity.
Qed.

(** With at least one model and one pass, a schedule that has no entry at
    [1000 - (t + 1)] makes [cond_fn] raise [IndexError]; with no model at
    all the schedules are never read. *)
Theorem cond_fn_reads_schedules (x : tensor) (t : Z) :
  (forall ms rest,
      (0 < cutn_batches args)%Z ->
      py_getitem (cut_overview args) (schedule_index t) = Raise IndexError
      \/ py_getitem (cut_innercut args) (schedule_index t) = Raise IndexError
      \/ py_getitem (cut_icgray_p args) (schedule_index t) = Raise IndexError ->
      cond_fn blend clip_grad aux_grad backprop args (ms :: rest) x t
      = Raise IndexError)
  /\ cond_fn blend clip_grad aux_grad backprop args [] x t
     = Ok (finish backprop args x
             (tadd (zeros_like (blend x)) (aux_grad (blend x)))).
Proof.
  split; [|reflexivity].
  intros ms rest Hk Hbad. unfold cond_fn, raw_gradient.
  cbn [model_loop].
  destruct (range_first Hk) as [passes ->]. cbn [cutn_loop].
  destruct (py_getitem (cut_overview args) (schedule_index t)) as [ov|e] eqn:E1.
  - destruct (py_getitem (cut_innercut args) (schedule_index t))
      as [ic|e] eqn:E2.
    + destruct (py_getitem (cut_icgray_p args) (schedule_index t))
        as [gp|e] eqn:E3.
      * destruct Hbad as [H|[H|H]]; discriminate.
      * rewrite (py_getitem_raises _ _ E3). reflexivity.
    + rewrite (py_getitem_raises _ _ E2). reflexivity.
  - rewrite (py_getitem_raises _ _ E1). reflexivity.
Qed.

End GuidanceEdges.

Lemma clamp_keeps_small_gradient_witness :
  data (finish half_backprop default_guidance_args one_pixel
               {| shape := [1; 1; 1; 1]%nat; data := [Fin (- (2 / 100))] |})
  = map Fin [1 / 100].
Proof.
  apply (@clamp_keeps_small_gradient half_backprop default_guidance_args
           one_pixel
           {| shape := [1; 1; 1; 1]%nat; data := [Fin (- (2 / 100))] |}
           [1 / 100]).
  - reflexivity.
  - reflexivity.
  - simpl. f_equal. f_equal. lra.
  - rewrite rms_singleton by lra. simpl. lra.
Defined.

Lemma clamp_zero_gradient_nan_witness :
  data (finish half_backprop default_guidance_args one_pixel
               {| shape := [1; 1; 1; 1]%nat; data := [Fin 0] |})
  = [NaN].
Proof.
  apply (@clamp_zero_gradient_nan half_backprop default_guidance_args
           one_pixel {| shape := [1; 1; 1; 1]%nat; data := [Fin 0] |} [0]).
  - reflexivity.
  - reflexivity.
  - simpl. f_equal. f_equal. lra.
  - discriminate.
  - repeat constructor.
Defined.

Lemma cond_fn_reads_schedules_witness :
  cond_fn half_blend (spiked_clip_grad (Fin 0)) no_aux_grad half_backprop
          (guidance_with default_cut_overview (Rep 4%Z 10)
                         default_cut_icgray_p (5 / 100))
          [tt] one_pixel 0
  = Raise IndexError.
Proof.
  apply (proj1 (@cond_fn_reads_schedules unit half_blend
                  (spiked_clip_grad (Fin 0)) no_aux_grad half_backprop
                  (guidance_with default_cut_overview (Rep 4%Z 10)
                                 default_cut_icgray_p (5 / 100))
                  one_pixel 0)).
  - reflexivity.
  - right. left. reflexivity.
Defined.

(** ** More on the cutout generators *)

Local Open Scope Z_scope.

Lemma for_each_total {A B : Type} (P : B -> Prop) (f : A -> result B)
      (l : list A) :
  (forall a, In a l -> exists b, f a = Ok b /\ P b) ->
  exists bs, for_each f l = Ok bs /\ Forall P bs
             /\ List.length bs = List.length l.
Proof.
  induction l as [|a l IH]; intros H; simpl.
  - exists []. repeat split. constructor.
  - destruct (H a (or_introl eq_refl)) as (b & -> & Hb).
    destruct IH as (bs & -> & Hbs & Hlen);
      [intros a' Ha'; apply H; right; exact Ha'|].
    exists (b :: bs). simpl. repeat split; [constructor; assumption | lia].
Qed.

Lemma Qlt_0_inject (z : Z) : 0 < z -> (0 < inject_Z z)%Q.
Proof. intros H. unfold Qlt. simpl. lia. Qed.

Lemma int_between (lo hi : Z) (q : Q) :
  0 < lo ->
  (inject_Z lo <= q)%Q -> (q <= inject_Z hi)%Q ->
  lo <= int q <= hi.
Proof.
  intros Hlo Hl Hh. unfold int.
  destruct (Qlt_le_dec q 0) as [Hneg|_].
  - exfalso. apply (Qlt_irrefl 0).
    eapply Qlt_le_trans; [apply (Qlt_0_inject Hlo)|].
    eapply Qle_trans; [exact Hl | apply Qlt_le_weak, Hneg].
  - split.
    + rewrite <- (Qfloor_Z lo). apply Qfloor_resp_le, Hl.
    + rewrite <- (Qfloor_Z hi). apply Qfloor_resp_le, Hh.
Qed.

(** The side of a crop of [MakeCutouts], for any draw [g]: between the
    target size and the smaller side of the image, or that smaller side
    itself when the target is larger. *)
Lemma crop_size_range (cs ms : Z) (g : Q) :
  0 < cs -> 0 < ms ->
  Z.min cs ms
  <= int (inject_Z ms * clip g (inject_Z cs / inject_Z ms) 1)%Q <= ms.
Proof.
  intros Hcs Hms.
  destruct (Z.le_gt_cases cs ms) as [Hle|Hgt].
  - rewrite Z.min_l by exact Hle. apply crop_size_bounds. lia.
  - rewrite Z.min_r by lia.
    pose proof (Qlt_0_inject Hms) as Hms0.
    set (lo := (inject_Z cs / inject_Z ms)%Q).
    assert (Hlo : (1 <= lo)%Q).
    { unfold lo. apply Qle_shift_div_l; [exact Hms0|].
      rewrite Qmult_1_l, <- Zle_Qle. lia. }
    assert (Hv : (1 <= clip g lo 1 <= 1)%Q).
    { unfold clip. split; [|apply Q.le_min_r].
      apply Q.min_glb; [|apply Qle_refl].
      eapply Qle_trans; [exact Hlo | apply Q.le_max_r]. }
    set (v := clip g lo 1) in *.
    apply int_between; [exact Hms| |].
    + setoid_replace (inject_Z ms) with (inject_Z ms * 1)%Q at 1 by ring.
      apply Qmult_le_l; [exact Hms0 | apply Hv].
    + setoid_replace (inject_Z ms) with (inject_Z ms * 1)%Q at 2 by ring.
      apply Qmult_le_l; [exact Hms0 | apply Hv].
Qed.

Lemma randint_inside (raw side size : Z) :
  size <= side ->
  exists offset,
    randint raw (side - size + 1) = Ok offset
    /\ 0 <= offset /\ offset + size <= side.
Proof.
  intros H. unfold randint.
  destruct (Z.ltb_spec 0 (side - size + 1)) as [_|?]; [|lia].
  exists (raw mod (side - size + 1)). split; [reflexivity|].
  pose proof (Z.mod_pos_bound raw (side - size + 1) ltac:(lia)). lia.
Qed.

Lemma MakeCutouts_step_total (fl : Q -> Q) self rnd padded ch :
  double_precision fl ->
  3 <= mc_cut_size self -> 0 < dim2 padded -> 0 < dim3 padded ->
  exists c,
    MakeCutouts_step self rnd padded ch = Ok c
    /\ window_inside (dim2 padded) (dim3 padded) c
    /\ resample fl (source_shape padded c)
                 (mc_cut_size self, mc_cut_size self)
       = Ok (out_shape c).
Proof.
  intros Hfl Hcs Hy Hx. unfold MakeCutouts_step.
  destruct (ch >? mc_cutn self - mc_cutn self / 4).
  - eexists. split; [reflexivity|]. unfold window_inside, source_shape.
    cbn [bind taken_from out_shape]. split; [exact I|].
    apply resample_same_sides; [exact Hfl | lia ..].
  - set (ms := Z.min (dim3 padded) (dim2 padded)).
    assert (Hms : 0 < ms) by (subst ms; lia).
    destruct (Z.eqb_spec ms 0) as [E|_]; [lia|].
    pose proof (@crop_size_range (mc_cut_size self) ms (normal_ rnd ch)
                  ltac:(lia) Hms) as Hsize.
    set (size := int (inject_Z ms
                      * clip (normal_ rnd ch)
                             (inject_Z (mc_cut_size self) / inject_Z ms) 1)%Q)
      in *.
    rewrite (Z.abs_eq (dim3 padded - size + 1)) by (subst ms; lia).
    rewrite (Z.abs_eq (dim2 padded - size + 1)) by (subst ms; lia).
    destruct (@randint_inside (randint_x rnd ch) (dim3 padded) size
                ltac:(subst ms; lia)) as (ox & -> & Hox).
    destruct (@randint_inside (randint_y rnd ch) (dim2 padded) size
                ltac:(subst ms; lia)) as (oy & -> & Hoy).
    eexists. split; [reflexivity|]. unfold window_inside, source_shape.
    cbn [bind taken_from out_shape].
    split; [repeat split; lia|].
    apply (@resample_same_sides fl
             {| dim0 := dim0 padded; dim1 := dim1 padded;
                dim2 := size; dim3 := size |}); [exact Hfl | cbn [dim2 dim3]; lia ..].
Qed.

(** On an image that is not empty, with a target size of 3 or more and
    at least one cutout asked for, [MakeCutouts.forward] returns: it gives
    [cutn] cutouts, every crop among them is a window that is not empty
    and lies inside the padded image, and the call of [resample] on each
    of them returns a tensor of the target size. *)
Theorem MakeCutouts_forward_total (fl : Q -> Q) self rnd input :
  double_precision fl ->
  0 < mc_cutn self -> 3 <= mc_cut_size self ->
  0 < dim2 input -> 0 < dim3 input ->
  let padded := {| dim0 := dim0 input; dim1 := dim1 input;
                   dim2 := dim2 input + 2 * (dim2 input / 4);
                   dim3 := dim3 input + 2 * (dim2 input / 4) |} in
  exists cutouts,
    MakeCutouts_forward self rnd input = Ok cutouts
    /\ List.length cutouts = Z.to_nat (mc_cutn self)
    /\ Forall (fun c =>
                 window_inside (dim2 padded) (dim3 padded) c
                 /\ resample fl (source_shape padded c)
                              (mc_cut_size self, mc_cut_size self)
                    = Ok (out_shape c)
                 /\ dim2 (out_shape c) = mc_cut_size self
                 /\ dim3 (out_shape c) = mc_cut_size self) cutouts.
Proof.
  intros Hfl Hn Hcs Hh Hw padded. unfold MakeCutouts_forward.
  assert (Hq : 0 <= dim2 input / 4) by (apply Z.div_pos; lia).
  fold padded.
  destruct (@for_each_total _ _
              (fun c => window_inside (dim2 padded) (dim3 padded) c
                        /\ resample fl (source_shape padded c)
                                     (mc_cut_size self, mc_cut_size self)
                           = Ok (out_shape c)
                        /\ dim2 (out_shape c) = mc_cut_size self
                        /\ dim3 (out_shape c) = mc_cut_size self)
              (MakeCutouts_step self rnd padded) (range (mc_cutn self)))
    as (cs & Hrun & Hall & Hlen).
  { intros ch _.
    destruct (@MakeCutouts_step_total fl self rnd padded ch Hfl Hcs)
      as (c & Hc & Hwin & Hres); [subst padded; cbn [dim2 dim3]; lia ..|].
    exists c. split; [exact Hc|]. split; [exact Hwin|].
    split; [exact Hres|].
    unfold MakeCutouts_step in Hc.
    destruct (_ : result region) as [reg|e]; cbn [bind] in Hc;
      [|discriminate].
    injection Hc as <-. split; reflexivity. }
  rewrite Hrun. cbn [bind]. rewrite range_length in Hlen.
  destruct cs as [|c cs]; [simpl in Hlen; lia|].
  exists (c :: cs). split; [reflexivity|]. split; [exact Hlen | exact Hall].
Qed.

Lemma MakeCutouts_forward_total_witness :
  exists cutouts,
    MakeCutouts_forward
      {| mc_cut_size := 224; mc_cutn := 16; mc_skip_augs := false |}
      fixed_draws image_512
    = Ok cutouts
    /\ List.length cutouts = 16%nat
    /\ Forall (fun c =>
                 window_inside 768 768 c
                 /\ resample (fun q => q)
                       (source_shape
                          {| dim0 := 1; dim1 := 3; dim2 := 768; dim3 := 768 |}
                          c)
                       (224, 224)
                    = Ok (out_shape c)
                 /\ dim2 (out_shape c) = 224 /\ dim3 (out_shape c) = 224)
              cutouts.
Proof.
  apply (@MakeCutouts_forward_total (fun q => q)
           {| mc_cut_size := 224; mc_cutn := 16; mc_skip_augs := false |}
           fixed_draws image_512);
    [exact exact_double_precision | simpl; lia ..].
Defined.

(** Asked for no cutout at all, either generator raises: [torch.cat] is
    handed an empty list (the scheduled generator first resizes the image,
    which is taken not to be empty). *)
Theorem no_cutouts_raises :
  (forall self rnd input,
      mc_cutn self <= 0 ->
      MakeCutouts_forward self rnd input = Raise RuntimeError)
  /\ (forall skip_augs self rnd input,
         0 < dim2 input -> 0 < dim3 input ->
         Overview self <= 0 -> InnerCrop self <= 0 ->
         MakeCutoutsDango_forward skip_augs self rnd input
         = Raise RuntimeError).
Proof.
  split.
  - intros self rnd input Hn. unfold MakeCutouts_forward, range.
    replace (Z.to_nat (mc_cutn self)) with 0%nat by lia. reflexivity.
  - intros skip self rnd input _ _ Ho Hi.
    unfold MakeCutoutsDango_forward, overview_cutouts.
    destruct (Z.gtb_spec (Overview self) 0) as [?|_]; [lia|].
    destruct (Z.gtb_spec (InnerCrop self) 0) as [?|_]; [lia|].
    reflexivity.
Qed.

Lemma no_cutouts_raises_witness :
  MakeCutouts_forward
    {| mc_cut_size := 224; mc_cutn := 0; mc_skip_augs := false |}
    fixed_draws image_512
  = Raise RuntimeError
  /\ MakeCutoutsDango_forward false
       {| cut_size := 224; Overview := 0; InnerCrop := 0;
          IC_Size_Pow := 1; IC_Grey_P := 0%Q |}
       fixed_draws image_512
     = Raise RuntimeError.
Proof.
  split.
  - apply (proj1 no_cutouts_raises). simpl. lia.
  - apply (proj2 no_cutouts_raises); simpl; lia.
Defined.

Lemma Qpower_unit (u : Q) (p : Z) :
  (0 <= u <= 1)%Q -> 0 <= p -> (0 <= u ^ p <= 1)%Q.
Proof.
  intros [Hu0 Hu1] Hp. split; [apply Qpower_0_le, Hu0|].
  revert p Hp. apply natlike_ind.
  - apply Qle_refl.
  - intros p Hp IH. unfold Z.succ.
    rewrite Qpower_plus' by lia. rewrite Qpower_1_r.
    eapply Qle_trans; [apply (Qmult_le_compat_r _ _ u IH Hu0)|].
    rewrite Qmult_1_l. exact Hu1.
Qed.

Lemma int_nonneg (q : Q) : (0 <= q)%Q -> 0 <= int q.
Proof.
  intros H. unfold int. destruct (Qlt_le_dec q 0) as [Hneg|_].
  - exfalso. apply (Qlt_irrefl q). eapply Qlt_le_trans; eassumption.
  - rewrite <- (Qfloor_Z 0). apply Qfloor_resp_le, H.
Qed.

Lemma innercrop_step_total self rnd input i :
  0 < cut_size self -> 0 < dim2 input -> 0 < dim3 input ->
  0 <= IC_Size_Pow self ->
  (0 <= rand rnd i <= 1)%Q ->
  exists c,
    innercrop_step self rnd input i = Ok c
    /\ window_inside (dim2 input) (dim3 input) c
    /\ taken_from c <> Whole
    /\ out_shape c = {| dim0 := 1; dim1 := 3;
                        dim2 := cut_size self; dim3 := cut_size self |}.
Proof.
  intros Hcs Hy Hx Hp Hu. unfold innercrop_step.
  set (mx := Z.min (dim3 input) (dim2 input)).
  set (mn := Z.min mx (cut_size self)).
  assert (Hmn : 0 < mn <= mx) by (subst mn mx; lia).
  pose proof (Qpower_unit Hu Hp) as [Hw0 Hw1].
  set (w := (rand rnd i ^ IC_Size_Pow self)%Q) in *.
  assert (Hd : (0 <= inject_Z (mx - mn))%Q)
    by (rewrite <- (Zle_Qle 0); lia).
  assert (Hsize : mn <= int (w * inject_Z (mx - mn) + inject_Z mn)%Q <= mx).
  { apply int_between; [lia| |].
    - setoid_replace (inject_Z mn) with (0 + inject_Z mn)%Q at 1 by ring.
      apply Qplus_le_compat; [|apply Qle_refl].
      apply Qmult_le_0_compat; assumption.
    - setoid_replace (inject_Z mx)
        with (1 * inject_Z (mx - mn) + inject_Z mn)%Q
        by (unfold Zminus; rewrite inject_Z_plus, inject_Z_opp; ring).
      apply Qplus_le_compat; [|apply Qle_refl].
      apply Qmult_le_compat_r; assumption. }
  set (size := int (w * inject_Z (mx - mn) + inject_Z mn)%Q) in *.
  destruct (@randint_inside (randint_x rnd i) (dim3 input) size
              ltac:(subst mx; lia)) as (ox & -> & Hox).
  destruct (@randint_inside (randint_y rnd i) (dim2 input) size
              ltac:(subst mx; lia)) as (oy & -> & Hoy).
  eexists. split; [reflexivity|]. unfold window_inside. cbn [taken_from out_shape].
  repeat split; try lia. discriminate.
Qed.

Lemma overview_cutouts_whole self :
  Forall (fun c =>
            taken_from c = Whole
            /\ out_shape c = {| dim0 := 1; dim1 := 3;
                                dim2 := cut_size self; dim3 := cut_size self |})
         (overview_cutouts self).
Proof.
  unfold overview_cutouts.
  destruct (Overview self >? 0); [|constructor].
  destruct (Overview self <=? 4).
  - destruct (Overview self >=? 1); destruct (Overview self >=? 2);
      destruct (Overview self >=? 3); destruct (Overview self =? 4);
      simpl; repeat constructor.
  - apply Forall_forall. intros c Hc.
    apply in_map_iff in Hc as (i & <- & _). split; reflexivity.
Qed.

(** With augmentation on, sides and target size positive, a size exponent
    that is not negative and draws in the unit interval, the scheduled
    generator returns [Overview + InnerCrop] cutouts whenever that is at
    least one: all of them augmented and of the target size, the inner
    crops being windows that are not empty and lie inside the image. *)
Theorem MakeCutoutsDango_forward_total self rnd input :
  0 <= Overview self -> 0 <= InnerCrop self ->
  0 < Overview self + InnerCrop self ->
  0 < cut_size self -> 0 < dim2 input -> 0 < dim3 input ->
  0 <= IC_Size_Pow self ->
  (forall i, (0 <= rand rnd i <= 1)%Q) ->
  exists cutouts,
    MakeCutoutsDango_forward false self rnd input = Ok (Some cutouts)
    /\ List.length cutouts = Z.to_nat (Overview self + InnerCrop self)
    /\ Forall (fun c =>
                 augmented c = true
                 /\ window_inside (dim2 input) (dim3 input) c
                 /\ out_shape c
                    = {| dim0 := 1; dim1 := 3;
                         dim2 := cut_size self; dim3 := cut_size self |})
              cutouts.
Proof.
  intros Ho Hi Hsum Hcs Hy Hx Hp Hu. unfold MakeCutoutsDango_forward.
  set (tgt := {| dim0 := 1; dim1 := 3;
                 dim2 := cut_size self; dim3 := cut_size self |}).
  assert (Hinner : exists inner,
             (if InnerCrop self >? 0
              then for_each (innercrop_step self rnd input)
                            (range (InnerCrop self))
              else Ok []) = Ok inner
             /\ Forall (fun c => window_inside (dim2 input) (dim3 input) c
                                 /\ out_shape c = tgt) inner
             /\ List.length inner = Z.to_nat (InnerCrop self)).
  { destruct (Z.gtb_spec (InnerCrop self) 0) as [Hpos|Hneg].
    - destruct (@for_each_total _ _
                  (fun c => window_inside (dim2 input) (dim3 input) c
                            /\ out_shape c = tgt)
                  (innercrop_step self rnd input) (range (InnerCrop self)))
        as (inner & Hrun & Hall & Hlen).
      { intros i _.
        destruct (@innercrop_step_total self rnd input i Hcs Hy Hx Hp (Hu i))
          as (c & Hc & Hwin & _ & Hshape).
        exists c. auto. }
      exists inner. rewrite range_length in Hlen. auto.
    - exists []. repeat split; [constructor|].
      replace (InnerCrop self) with 0 by lia. reflexivity. }
  destruct Hinner as (inner & -> & Hall & Hlen). cbn [bind].
  pose proof (overview_cutouts_whole self) as Hov.
  pose proof (overview_cutouts_length self) as Hovlen.
  set (ov := overview_cutouts self) in *.
  assert (Hcount : List.length (ov ++ inner)
                   = Z.to_nat (Overview self + InnerCrop self))
    by (rewrite length_app; lia).
  destruct (ov ++ inner) as [|c cs] eqn:Hall_eq; [simpl in Hcount; lia|].
  cbn [torch_cat bind negb]. eexists. split; [reflexivity|].
  split; [rewrite length_map; exact Hcount|].
  rewrite <- Hall_eq. apply Forall_forall. intros c' Hc'.
  apply in_map_iff in Hc' as (c0 & <- & Hc0).
  apply in_app_iff in Hc0 as [Hin|Hin].
  - rewrite Forall_forall in Hov. destruct (Hov c0 Hin) as [Hw Hs].
    unfold window_inside. cbn [augment augmented taken_from out_shape].
    rewrite Hw. auto.
  - rewrite Forall_forall in Hall. destruct (Hall c0 Hin) as [Hw Hs].
    unfold window_inside in *. cbn [augment augmented taken_from out_shape].
    auto.
Qed.

Lemma MakeCutoutsDango_forward_total_witness :
  exists cutouts,
    MakeCutoutsDango_forward false
      {| cut_size := 224; Overview := 4; InnerCrop := 12;
         IC_Size_Pow := 1; IC_Grey_P := 0%Q |}
      fixed_draws image_512
    = Ok (Some cutouts)
    /\ List.length cutouts = 16%nat
    /\ Forall (fun c =>
                 augmented c = true
                 /\ window_inside 512 512 c
                 /\ out_shape c
                    = {| dim0 := 1; dim1 := 3; dim2 := 224; dim3 := 224 |})
              cutouts.
Proof.
  apply (@MakeCutoutsDango_forward_total
           {| cut_size := 224; Overview := 4; InnerCrop := 12;
              IC_Size_Pow := 1; IC_Grey_P := 0%Q |}
           fixed_draws image_512); simpl; try lia.
  intros _. split; discriminate.
Defined.

(** Whatever the grayscale fraction, zero included, the first inner crop
    of the batch is grayscale: the test [i <= int(IC_Grey_P * InnerCrop)]
    holds at [i = 0]. *)
Theorem first_inner_crop_is_gray self rnd input cutouts :
  MakeCutoutsDango_forward false self rnd input = Ok (Some cutouts) ->
  0 < InnerCrop self ->
  (0 <= IC_Grey_P self)%Q ->
  exists c,
    nth_error cutouts (Z.to_nat (Overview self)) = Some c
    /\ grayed c = true
    /\ taken_from c <> Whole.
Proof.
  unfold MakeCutoutsDango_forward. intros H Hn Hp.
  destruct (Z.gtb_spec (InnerCrop self) 0) as [_|?]; [|lia].
  destruct (range_first Hn) as [rest Hrange]. rewrite Hrange in H.
  cbn [for_each] in H.
  destruct (innercrop_step self rnd input 0) as [c0|e] eqn:Hc0;
    cbn [bind] in H; [|discriminate].
  destruct (for_each _ rest) as [cs|e]; cbn [bind] in H; [|discriminate].
  destruct (torch_cat _) as [all|e] eqn:Hcat; cbn [bind negb] in H;
    [|discriminate].
  apply torch_cat_ok in Hcat. injection H as <-. subst all.
  exists (augment c0). split; [|split].
  - rewrite <- overview_cutouts_length, map_app.
    rewrite nth_error_app2 by (rewrite length_map; lia).
    rewrite length_map, Nat.sub_diag. reflexivity.
  - unfold innercrop_step in Hc0.
    destruct (randint _ _) as [ox|e]; cbn [bind] in Hc0; [|discriminate].
    destruct (randint _ _) as [oy|e]; cbn [bind] in Hc0; [|discriminate].
    injection Hc0 as <-. cbn [augment grayed].
    apply Z.leb_le, int_nonneg.
    apply Qmult_le_0_compat; [exact Hp|].
    rewrite <- (Zle_Qle 0). lia.
  - unfold innercrop_step in Hc0.
    destruct (randint _ _) as [ox|e]; cbn [bind] in Hc0; [|discriminate].
    destruct (randint _ _) as [oy|e]; cbn [bind] in Hc0; [|discriminate].
    injection Hc0 as <-. cbn [augment taken_from]. discriminate.
Qed.

Lemma first_inner_crop_is_gray_witness :
  exists c,
    nth_error
      (map augment
           (overview_cutouts
              {| cut_size := 224; Overview := 1; InnerCrop := 1;
                 IC_Size_Pow := 1; IC_Grey_P := 0%Q |}
            ++ [{| taken_from := Window 3 7 368; grayed := true;
                   hflipped := false; augmented := false;
                   out_shape := {| dim0 := 1; dim1 := 3;
                                   dim2 := 224; dim3 := 224 |} |}]))
      (Z.to_nat 1)
    = Some c
    /\ grayed c = true /\ taken_from c <> Whole.
Proof.
  apply (@first_inner_crop_is_gray
           {| cut_size := 224; Overview := 1; InnerCrop := 1;
              IC_Size_Pow := 1; IC_Grey_P := 0%Q |}
           fixed_draws image_512).
  - vm_compute. reflexivity.
  - reflexivity.
  - discriminate.
Defined.

(** ** Preview frames *)

Local Open Scope Z_scope.

Lemma preview_loop_returns {I : Type} (display_rate : Z)
      (samples : list (list I)) :
  display_rate <> 0 ->
  forall cur_t j, exists frames,
    preview_loop display_rate cur_t j samples = Ok frames.
Proof.
  intros Hr. induction samples as [|s rest IH]; intros cur_t j; simpl.
  - exists []. reflexivity.
  - destruct (Z.eqb_spec display_rate 0) as [E|_]; [contradiction|].
    destruct (IH (cur_t - 1) (j + 1)) as [frames ->].
    eexists. reflexivity.
Qed.

Lemma preview_loop_final {I : Type} (display_rate : Z) (final : list I)
      (earlier : list (list I)) :
  display_rate <> 0 ->
  forall cur_t j,
    cur_t = Z.of_nat (List.length earlier) ->
    exists frames,
      preview_loop display_rate cur_t j (earlier ++ [final])
      = Ok (frames ++ map (pair (-1)) final).
Proof.
  intros Hr. induction earlier as [|s rest IH]; intros cur_t j Hc; simpl.
  - destruct (Z.eqb_spec display_rate 0) as [E|_]; [contradiction|].
    subst cur_t. cbn [List.length Z.of_nat Z.sub Z.add Z.opp Z.eqb].
    rewrite orb_true_r. exists []. cbn [bind app]. rewrite app_nil_r.
    reflexivity.
  - destruct (Z.eqb_spec display_rate 0) as [E|_]; [contradiction|].
    destruct (IH (cur_t - 1) (j + 1)) as [frames ->].
    { subst cur_t. simpl List.length. lia. }
    cbn [bind]. eexists. rewrite app_assoc. reflexivity.
Qed.



(** ** More on the semantic-distance loss *)

Local Open Scope R_scope.

Lemma dot_vsub_swap (a b : vec) :
  dot (vsub a b) (vsub a b) = dot (vsub b a) (vsub b a).
Proof.
  unfold dot, vsub. revert b.
  induction a as [|r a IH]; intros [|s b]; simpl; try reflexivity.
  rewrite IH. ring.
Qed.

Lemma normalize_scaled (k : R) (x : vec) :
  0 < k ->
  normalize_eps <= norm x ->
  normalize_eps <= k * norm x ->
  normalize (map (Rmult k) x) = normalize x.
Proof.
  intros Hk Hx Hkx. pose proof normalize_eps_pos as He.
  unfold normalize.
  rewrite norm_scale by lra.
  rewrite (Rmax_left (k * norm x)) by exact Hkx.
  rewrite (Rmax_left (norm x)) by exact Hx.
  rewrite map_map. apply map_ext. intros a. field. lra.
Qed.

(** The loss looks at directions only: it is the same with its two
    arguments exchanged, and it does not change when an embedding is
    multiplied by a positive factor, as long as the embedding stays above
    the threshold of [F.normalize] on both sides. *)
Theorem spherical_dist_loss_directions :
  (forall x y, spherical_dist_loss x y = spherical_dist_loss y x)
  /\ (forall k x y,
         0 < k ->
         normalize_eps <= norm x ->
         normalize_eps <= k * norm x ->
         spherical_dist_loss (map (Rmult k) x) y = spherical_dist_loss x y
         /\ spherical_dist_loss y (map (Rmult k) x) = spherical_dist_loss y x).
Proof.
  split.
  - intros x y. unfold spherical_dist_loss, norm.
    rewrite dot_vsub_swap. reflexivity.
  - intros k x y Hk Hx Hkx. unfold spherical_dist_loss.
    rewrite (@normalize_scaled k x Hk Hx Hkx). split; reflexivity.
Qed.

Lemma spherical_dist_loss_directions_witness :
  spherical_dist_loss (map (Rmult 3) [1]) [-1] = spherical_dist_loss [1] [-1]
  /\ spherical_dist_loss [-1] (map (Rmult 3) [1])
     = spherical_dist_loss [-1] [1].
Proof.
  pose proof normalize_eps_le_1 as He.
  apply (proj2 spherical_dist_loss_directions 3 [1] [-1]).
  - lra.
  - rewrite norm_singleton, Rabs_R1. exact He.
  - rewrite norm_singleton, Rabs_R1. lra.
Defined.

(** ** The accumulated gradient *)

Lemma zip_with_fadd_Fin (a b : list R) :
  zip_with fadd (map Fin a) (map Fin b) = map Fin (zip_with Rplus a b).
Proof.
  revert b. induction a as [|x a IH]; intros [|y b]; simpl;
    try reflexivity.
  rewrite IH. reflexivity.
Qed.

Lemma zip_with_scaled (c k : R) (gs : list R) :
  zip_with Rplus (map (fun g => c * (g / k)) gs) (map (fun g => g / k) gs)
  = map (fun g => (c + 1) * (g / k)) gs.
Proof.
  induction gs as [|g gs IH]; simpl; [reflexivity|].
  rewrite IH. f_equal. ring.
Qed.

Lemma zeros_scaled (k : R) (xs : list fval) (gs : list R) :
  List.length xs = List.length gs ->
  map (fun _ => Fin 0) xs = map Fin (map (fun g => 0 * (g / k)) gs).
Proof.
  revert gs. induction xs as [|x xs IH]; intros [|g gs] H;
    try discriminate; simpl; [reflexivity|].
  injection H as H. rewrite (IH gs H). do 2 f_equal. ring.
Qed.

Lemma div_Fin (gs : list R) (k : R) :
  k <> 0 ->
  map (fun a => fdiv a (Fin k)) (map Fin gs)
  = map Fin (map (fun v => v / k) gs).
Proof.
  intros Hk. rewrite !map_map. apply map_ext. intros v. unfold fdiv.
  destruct (Req_dec_T k 0); [contradiction | reflexivity].
Qed.

Section GradientMean.

Variable model_stat : Type.
Variable blend : tensor -> tensor.
Variable clip_grad : model_stat -> Z -> Z -> Z -> Q -> tensor -> result tensor.
Variable aux_grad : tensor -> tensor.
Variable args : guidance_args.

Lemma cutn_loop_same_pass (ms : model_stat) (t : Z) (x_in g : tensor)
      (gs : list R) (ov ic : Z) (gp : Q) :
  py_getitem (cut_overview args) (schedule_index t) = Ok ov ->
  py_getitem (cut_innercut args) (schedule_index t) = Ok ic ->
  py_getitem (cut_icgray_p args) (schedule_index t) = Ok gp ->
  (forall i, clip_grad ms i ov ic gp x_in = Ok g) ->
  data g = map Fin gs ->
  IZR (cutn_batches args) <> 0 ->
  forall (passes : list Z) (acc : tensor) (c : R),
    data acc = map Fin (map (fun v => c * (v / IZR (cutn_batches args))) gs) ->
    exists r,
      cutn_loop clip_grad args ms t x_in passes acc = Ok r
      /\ shape r = shape acc
      /\ data r
         = map Fin (map (fun v => (c + INR (List.length passes))
                                  * (v / IZR (cutn_batches args))) gs).
Proof.
  intros Hov Hic Hgp Hpass Hg Hk.
  induction passes as [|i passes IH]; intros acc c Hacc.
  - exists acc. split; [reflexivity|]. split; [reflexivity|].
    rewrite Hacc. f_equal. apply map_ext. intros v. simpl INR. ring.
  - cbn [cutn_loop]. rewrite Hov. cbn [bind]. rewrite Hic. cbn [bind].
    rewrite Hgp. cbn [bind]. rewrite Hpass. cbn [bind].
    set (acc' := tadd acc (tmap (fun a => fdiv a (Fin (IZR (cutn_batches args)))) g)).
    assert (Hacc' : data acc'
                    = map Fin (map (fun v => (c + 1)
                                             * (v / IZR (cutn_batches args))) gs)).
    { unfold acc', tadd, tmap. cbn [data].
      rewrite Hacc, Hg, (div_Fin gs Hk).
      rewrite zip_with_fadd_Fin, zip_with_scaled. reflexivity. }
    destruct (IH acc' (c + 1) Hacc') as (r & Hr & Hshape & Hdata).
    exists r. split; [exact Hr|]. split; [exact Hshape|].
    rewrite Hdata. f_equal. apply map_ext. intros v.
    change (List.length (i :: passes)) with (S (List.length passes)).
    rewrite S_INR. ring.
Qed.

(** With one model whose passes all return the same finite gradient, the
    division of each pass by [cutn_batches] makes the accumulated
    gradient that gradient plus the gradient of the auxiliary losses,
    whatever the number of passes. *)
Theorem raw_gradient_is_mean_of_passes (ms : model_stat) (x : tensor)
        (t : Z) (g : tensor) (gs aux : list R) (ov ic : Z) (gp : Q) :
  (0 < cutn_batches args)%Z ->
  py_getitem (cut_overview args) (schedule_index t) = Ok ov ->
  py_getitem (cut_innercut args) (schedule_index t) = Ok ic ->
  py_getitem (cut_icgray_p args) (schedule_index t) = Ok gp ->
  (forall i, clip_grad ms i ov ic gp (blend x) = Ok g) ->
  data g = map Fin gs ->
  data (aux_grad (blend x)) = map Fin aux ->
  List.length (data (blend x)) = List.length gs ->
  exists r,
    raw_gradient blend clip_grad aux_grad args [ms] x t = Ok r
    /\ shape r = shape (blend x)
    /\ data r = map Fin (zip_with Rplus gs aux).
Proof.
  intros Hk Hov Hic Hgp Hpass Hg Haux Hlen.
  assert (Hk0 : IZR (cutn_batches args) <> 0)
    by (apply not_0_IZR; lia).
  unfold raw_gradient. cbn [model_loop].
  destruct (@cutn_loop_same_pass ms t (blend x) g gs ov ic gp
              Hov Hic Hgp Hpass Hg Hk0
              (range (cutn_batches args)) (zeros_like (blend x)) 0)
    as (r & Hr & Hshape & Hdata).
  { unfold zeros_like, tmap. cbn [data]. apply zeros_scaled, Hlen. }
  rewrite Hr. cbn [bind]. eexists. split; [reflexivity|].
  unfold tadd. cbn [shape data]. split; [exact Hshape|].
  rewrite Hdata, Haux, zip_with_fadd_Fin. do 2 f_equal.
  transitivity (map (fun v : R => v) gs); [|apply map_id].
  apply map_ext. intros v.
  rewrite range_length, INR_IZR_INZ, Z2Nat.id by lia.
  field. exact Hk0.
Qed.

End GradientMean.

Lemma raw_gradient_is_mean_of_passes_witness :
  exists r,
    raw_gradient half_blend (spiked_clip_grad (Fin 8)) no_aux_grad
                 default_guidance_args [tt] one_pixel 0
    = Ok r
    /\ shape r = shape (half_blend one_pixel)
    /\ data r = map Fin (zip_with Rplus [8] [0]).
Proof.
  apply (@raw_gradient_is_mean_of_passes unit half_blend
           (spiked_clip_grad (Fin 8)) no_aux_grad default_guidance_args
           tt one_pixel 0
           {| shape := [1; 1; 1; 1]%nat; data := [Fin 8] |}
           [8] [0] 4%Z 12%Z 0%Q).
  - reflexivity.
  - reflexivity.
  - reflexivity.
  - reflexivity.
  - intros i. reflexivity.
  - reflexivity.
  - reflexivity.
  - reflexivity.
Defined.
